(** * goreload: a development-time live-reload notifier

  A shallow embedding of the Go package [goreload] (the reloader with its
  subscriber registry, the polling watcher with its directory fingerprint,
  the server-sent-events handler and the cache middleware), followed by
  the properties proved about it. *)

From Stdlib Require Import ZArith String Ascii List Lia DecimalString.
From Stdlib Require Import Floats.SpecFloat.
From stdpp Require Import gmap list strings fin_maps.

Open Scope Z_scope.

(** ** Machine integers *)

Module Int64.
Definition modulus : Z := 2 ^ 64.
Definition max_int : Z := 2 ^ 63 - 1.
Definition min_int : Z := - 2 ^ 63.

(** Two's complement wrap-around of Go's [int64] (and of [int] on the
    64-bit platforms). *)
Definition wrap (x : Z) : Z := (x + 2 ^ 63) mod modulus - 2 ^ 63.

End Int64.

(** ** crypto/sha1 and encoding/hex *)

Module SHA1.
Definition w32 (x : Z) : Z := x mod 2 ^ 32.

Definition rotl (n x : Z) : Z :=
  w32 (Z.lor (Z.shiftl x n) (Z.shiftr x (32 - n))).

Definition not32 (x : Z) : Z := Z.lxor x 4294967295.

(** Big-endian bytes of a 32-bit and of a 64-bit word. *)
Definition be32 (x : Z) : list Z :=
  [Z.shiftr x 24 mod 256; Z.shiftr x 16 mod 256; Z.shiftr x 8 mod 256; x mod 256].

Definition be64 (x : Z) : list Z :=
  be32 (Z.shiftr x 32 mod 2 ^ 32) ++ be32 (x mod 2 ^ 32).

(** The message followed by the bit 1, zeros up to 56 modulo 64 bytes, and
    the length in bits. *)
Definition pad (msg : list Z) : list Z :=
  let len := Z.of_nat (length msg) in
  msg ++ [128] ++ repeat 0 (Z.to_nat ((55 - len) mod 64)) ++ be64 (8 * len).

Fixpoint words (bs : list Z) : list Z :=
  match bs with
  | b0 :: b1 :: b2 :: b3 :: rest =>
      (Z.shiftl b0 24 + Z.shiftl b1 16 + Z.shiftl b2 8 + b3) :: words rest
  | _ => []
  end.

(** The message schedule, kept newest word first: [W t] is
    [rotl 1 (W (t-3) xor W (t-8) xor W (t-14) xor W (t-16))]. *)
Fixpoint extend (n : nat) (rev_ws : list Z) : list Z :=
  match n with
  | O => rev_ws
  | S n' =>
      let w := rotl 1 (Z.lxor (Z.lxor (nth 2 rev_ws 0) (nth 7 rev_ws 0))
                              (Z.lxor (nth 13 rev_ws 0) (nth 15 rev_ws 0))) in
      extend n' (w :: rev_ws)
  end.

Definition schedule (block : list Z) : list Z :=
  rev (extend 64 (rev (words block))).

Definition state : Type := Z * Z * Z * Z * Z.

Definition round (st : state) (tw : Z * Z) : state :=
  let '(a, b, c, d, e) := st in
  let '(t, w) := tw in
  let '(f, k) :=
    if t <? 20 then (Z.lor (Z.land b c) (Z.land (not32 b) d), 1518500249)
    else if t <? 40 then (Z.lxor (Z.lxor b c) d, 1859775393)
    else if t <? 60 then
      (Z.lor (Z.lor (Z.land b c) (Z.land b d)) (Z.land c d), 2400959708)
    else (Z.lxor (Z.lxor b c) d, 3395469782) in
  (w32 (rotl 5 a + f + e + k + w), a, rotl 30 b, c, d).

Fixpoint number (t : Z) (ws : list Z) : list (Z * Z) :=
  match ws with
  | [] => []
  | w :: ws' => (t, w) :: number (t + 1) ws'
  end.

Definition compress (h : state) (block : list Z) : state :=
  let '(h0, h1, h2, h3, h4) := h in
  let '(a, b, c, d, e) := fold_left round (number 0 (schedule block)) h in
  (w32 (h0 + a), w32 (h1 + b), w32 (h2 + c), w32 (h3 + d), w32 (h4 + e)).

(** The blocks of 64 bytes; [fuel] bounds the number of blocks. *)
Fixpoint blocks (fuel : nat) (h : state) (bs : list Z) : state :=
  match fuel, bs with
  | S fuel', _ :: _ => blocks fuel' (compress h (firstn 64 bs)) (skipn 64 bs)
  | _, _ => h
  end.

Definition init : state :=
  (1732584193, 4023233417, 2562383102, 271733878, 3285377520).

Definition sum (msg : list Z) : list Z :=
  let p := pad msg in
  let '(h0, h1, h2, h3, h4) := blocks (length p) init p in
  be32 h0 ++ be32 h1 ++ be32 h2 ++ be32 h3 ++ be32 h4.
End SHA1.

Module Hex.
Definition digit (n : Z) : ascii :=
  if n <? 10 then ascii_of_N (Z.to_N (48 + n)) else ascii_of_N (Z.to_N (87 + n)).

(** [hex.EncodeToString]: two lower-case digits per byte. *)
Fixpoint EncodeToString (bs : list Z) : string :=
  match bs with
  | [] => EmptyString
  | b :: bs' => String (digit (b / 16)) (String (digit (b mod 16)) (EncodeToString bs'))
  end.
End Hex.

Definition bytes_of_string (s : string) : list Z :=
map (fun a => Z.of_N (N_of_ascii a)) (list_ascii_of_string s).

(** [%d] of an integer: decimal digits, with a minus sign when negative. *)
Definition format_int (x : Z) : string := NilZero.string_of_int (Z.to_int x).

(** ** The watched directory tree (io/fs)

    A snapshot of the tree behind an [fs.FS] handle, as [fs.WalkDir] sees it.
    [Info ()] on a directory entry and [ReadDir] on a directory can fail, and
    [ReadDir] may return the entries read before the failure. *)

Definition error : Type := string.

(** [time.Time] as seconds since the Unix epoch and nanoseconds within the
    second; [UnixNano] is computed in [int64] and wraps outside the years
    1678 to 2262. *)
Record Time := mkTime { unixSec : Z; nsec : Z }.

Definition UnixNano (t : Time) : Z :=
  Int64.wrap (unixSec t * 1000000000 + nsec t).

Record FileInfo := mkFileInfo { ModTime : Time; Size : Z }.

#[warnings="-register-all"] Inductive DirEntry :=
| File (info : error + FileInfo)
| Dir (entries : list (string * DirEntry)) (readErr : option error).

(** What [fs.Stat (fsys, ".")] returns: the root entry, or an error. *)
Definition FS : Type := error + DirEntry.

Definition IsDir (d : DirEntry) : bool :=
  match d with Dir _ _ => true | File _ => false end.

(** [d.Info ()]; the callback of the fingerprint asks it of files only, so
    the information of a directory is left empty. *)
Definition Info (d : DirEntry) : error + FileInfo :=
  match d with
  | File info => info
  | Dir _ _ => inr (mkFileInfo (mkTime 0 0) 0)
  end.

(** [path.Join (name, d1.Name ())] for an entry name read from a directory:
    the root ["."] disappears, any other directory is followed by a slash. *)
Definition path_Join (name entry : string) : string :=
  if String.eqb name "." then entry else name +:+ "/" +:+ entry.

(** [fs.WalkDir] for a callback that threads a state of type [St] and never
    returns the sentinels [fs.SkipDir] and [fs.SkipAll]. *)
Section WalkDir.
Context {St : Type}.
Variable fn : string -> option DirEntry -> option error -> St -> option error * St.

(** The loop of [walkDir] over the entries of a directory; [walk] walks
    one entry, given its name. *)
Fixpoint walkEntries (walk : string -> DirEntry -> St -> option error * St)
    (dirs : list (string * DirEntry)) (st : St) : option error * St :=
  match dirs with
  | [] => (None, st)
  | (n1, d1) :: rest =>
      match walk n1 d1 st with
      | (Some err, st') => (Some err, st')
      | (None, st') => walkEntries walk rest st'
      end
  end.

Fixpoint walkDir (name : string) (d : DirEntry) (st : St) : option error * St :=
  match fn name (Some d) None st with
  | (Some err, st1) => (Some err, st1)
  | (None, st1) =>
      match d with
      | File _ => (None, st1)
      | Dir dirs readErr =>
          let walk := fun n1 d1 => walkDir (path_Join name n1) d1 in
          match readErr with
          | Some err =>
              (* second call, to report the ReadDir error *)
              match fn name (Some d) (Some err) st1 with
              | (Some err', st2) => (Some err', st2)
              | (None, st2) => walkEntries walk dirs st2
              end
          | None => walkEntries walk dirs st1
          end
      end
  end.

Definition WalkDir (fsys : FS) (root : string) (st : St) : option error * St :=
  match fsys with
  | inl err => fn root None (Some err) st
  | inr d => walkDir root d st
  end.
End WalkDir.

(** ** watcher.go: directoryFingerprint *)

(** [fmt.Fprintf (hasher, "%s:%d:%d;", path, modTime, size)]. *)
Definition fingerprint_record (path : string) (modTime size : Z) : string :=
  path +:+ ":" +:+ format_int modTime +:+ ":" +:+ format_int size +:+ ";".

(** The callback given to [fs.WalkDir]. The hasher is the sequence of bytes
    written to it so far; writing to a hash never fails. [fs.WalkDir] gives
    no entry only together with an error. *)
Definition fingerprint_visit (path : string) (d : option DirEntry)
    (err : option error) (hasher : string) : option error * string :=
  match err with
  | Some e => (Some e, hasher)
  | None =>
      match d with
      | None => (None, hasher)
      | Some d =>
          if IsDir d then (None, hasher)
          else
            match Info d with
            | inl e => (Some e, hasher)
            | inr fi =>
                (None,
                 hasher +:+ fingerprint_record path (UnixNano (ModTime fi)) (Size fi))
            end
      end
  end.

Definition directoryFingerprint (dir : FS) : string * option error :=
  match WalkDir fingerprint_visit dir "." "" with
  | (Some err, _) => ("", Some err)
  | (None, hasher) =>
      (Hex.EncodeToString (SHA1.sum (bytes_of_string hasher)), None)
  end.

(** The tracked files of a tree: relative path, modification time and size
    of every regular file, in traversal order. Directories are not tracked. *)
Fixpoint tracked (name : string) (d : DirEntry) : list (string * Time * Z) :=
  match d with
  | File (inr fi) => [(name, ModTime fi, Size fi)]
  | File (inl _) => []
  | Dir dirs _ =>
      flat_map (fun nd => tracked (path_Join name (fst nd)) (snd nd)) dirs
  end.

Definition tracked_files (dir : FS) : list (string * Time * Z) :=
  match dir with
  | inl _ => []
  | inr d => tracked "." d
  end.

(** ** time.Duration and float64

    [Duration.Seconds] is computed in [float64]:
    [float64 (d / Second) + float64 (d % Second) / 1e9]. The IEEE 754
    binary64 operations are those of [SpecFloat], rounding to nearest even. *)

Module Float64.
Definition prec : Z := 53.
Definition emax : Z := 1024.

Definition of_int (x : Z) : spec_float := binary_normalize prec emax x 0 false.
Definition add (x y : spec_float) : spec_float := SFadd prec emax x y.
Definition div (x y : spec_float) : spec_float := SFdiv prec emax x y.

(** The conversion [int (f)]: the fractional part is discarded. *)
Definition to_int (f : spec_float) : Z :=
  match f with
  | S754_finite s m e =>
      let v := if 0 <=? e then Z.pos m * 2 ^ e else Z.pos m / 2 ^ (- e) in
      if s then - v else v
  | S754_zero _ => 0
  | _ => Int64.min_int
  end.
End Float64.

Module Duration.
Definition Second : Z := 1000000000.

Definition Seconds (d : Z) : spec_float :=
  let sec := Z.quot d Second in
  let nsec := Z.rem d Second in
  Float64.add (Float64.of_int sec)
              (Float64.div (Float64.of_int nsec) (Float64.of_int 1000000000)).
End Duration.

(** ** Channels of [struct{}], [sync.Once] and panics *)

(** A channel carries no data, so its buffer is the number of queued tokens. *)
Record chan := mkChan { chan_cap : nat; chan_len : nat; chan_closed : bool }.

Definition make_chan (cap : nat) : chan := mkChan cap 0 false.

(** The outcome of code that may panic. *)
Inductive result (A : Type) : Type :=
| Ok (a : A)
| Panic.
Arguments Ok {A} a.
Arguments Panic {A}.

#[export] Instance result_ret : MRet result := fun A a => Ok a.
#[export] Instance result_bind : MBind result :=
  fun A B f m => match m with Ok a => f a | Panic => Panic end.

(** [close (ch)] on the channel at address [ch]; an address that holds no
    channel stands for the nil channel. *)
Definition chan_close (ch : nat) (h : list chan) : result (list chan) :=
  match h !! ch with
  | Some c =>
      if chan_closed c then Panic
      else Ok (<[ch := mkChan (chan_cap c) (chan_len c) true]> h)
  | None => Panic
  end.

(** [select { case ch <- struct{}{}: default: }]. *)
Definition chan_try_send (ch : nat) (h : list chan) : result (list chan) :=
  match h !! ch with
  | Some c =>
      if chan_closed c then Panic
      else if (chan_len c <? chan_cap c)%nat
           then Ok (<[ch := mkChan (chan_cap c) (S (chan_len c)) false]> h)
           else Ok h
  | None => Ok h
  end.

(** [_, ok := <-ch] when it can proceed: [None] means the receive blocks. *)
Definition chan_recv (ch : nat) (h : list chan) : option (bool * list chan) :=
  match h !! ch with
  | Some c =>
      match chan_len c with
      | S n => Some (true, <[ch := mkChan (chan_cap c) n (chan_closed c)]> h)
      | O => if chan_closed c then Some (false, h) else None
      end
  | None => None
  end.

(** The effect of a non-blocking send on an open channel. *)
Definition deposit (c : chan) : chan :=
  if (chan_len c <? chan_cap c)%nat
  then mkChan (chan_cap c) (S (chan_len c)) false
  else c.

(** The effect of [close] on an open channel. *)
Definition shut (c : chan) : chan := mkChan (chan_cap c) (chan_len c) true.

(** [for k, v := range m { body }] over the entries in the order [kvs]. *)
Fixpoint for_range {K V S : Type} (body : K -> V -> S -> result S)
    (kvs : list (K * V)) (s : S) : result S :=
  match kvs with
  | [] => Ok s
  | (k, v) :: rest => s' ← body k v s; for_range body rest s'
  end.

(** ** The Reloader *)

Module Config.
Record t := mk { Route : string; Enabled : bool; MaxAge : Z }.
End Config.

(** The struct [Reloader] without its logger and its mutex: every method
    body below runs under the mutex, hence as one step. A channel is the
    address of its state in the store of the [world]; [watchCancel] is the
    context it cancels, [None] for nil. *)
Record Reloader := mkReloader {
  closed : bool;
  nextID : Z;
  clients : gmap Z nat;
  route : string;
  enabled : bool;
  maxAge : Z;
  watchCancel : option nat
}.

(** The reloader together with the objects it shares with its callers:
    channels, the [sync.Once] of each release closure, and the cancelled
    flag of each watcher context. *)
Record world := mkWorld {
  rl : Reloader;
  chans : list chan;
  onces : list bool;
  contexts : list bool
}.

Definition New (config : Config.t) : Reloader :=
  {| closed := false;
     nextID := 0;
     clients := ∅;
     route := Config.Route config;
     enabled := Config.Enabled config;
     maxAge := Float64.to_int (Duration.Seconds (Config.MaxAge config));
     watchCancel := None |}.

Definition new_world (config : Config.t) : world :=
  {| rl := New config; chans := []; onces := []; contexts := [] |}.

Definition set_clients (m : gmap Z nat) (r : Reloader) : Reloader :=
  {| closed := closed r; nextID := nextID r; clients := m; route := route r;
     enabled := enabled r; maxAge := maxAge r; watchCancel := watchCancel r |}.

Definition set_nextID (n : Z) (r : Reloader) : Reloader :=
  {| closed := closed r; nextID := n; clients := clients r; route := route r;
     enabled := enabled r; maxAge := maxAge r; watchCancel := watchCancel r |}.

Definition set_closed (b : bool) (r : Reloader) : Reloader :=
  {| closed := b; nextID := nextID r; clients := clients r; route := route r;
     enabled := enabled r; maxAge := maxAge r; watchCancel := watchCancel r |}.

Definition set_enabled (b : bool) (r : Reloader) : Reloader :=
  {| closed := closed r; nextID := nextID r; clients := clients r; route := route r;
     enabled := b; maxAge := maxAge r; watchCancel := watchCancel r |}.

Definition set_watchCancel (c : option nat) (r : Reloader) : Reloader :=
  {| closed := closed r; nextID := nextID r; clients := clients r; route := route r;
     enabled := enabled r; maxAge := maxAge r; watchCancel := c |}.

Definition with_rl (r : Reloader) (w : world) : world :=
  {| rl := r; chans := chans w; onces := onces w; contexts := contexts w |}.

Definition with_chans (h : list chan) (w : world) : world :=
  {| rl := rl w; chans := h; onces := onces w; contexts := contexts w |}.

Definition with_onces (o : list bool) (w : world) : world :=
  {| rl := rl w; chans := chans w; onces := o; contexts := contexts w |}.

Definition with_contexts (c : list bool) (w : world) : world :=
  {| rl := rl w; chans := chans w; onces := onces w; contexts := c |}.

(** The release closures that [subscribe] returns: [func() {}], or the
    closure over the identifier and its own [sync.Once]. *)
Inductive releaseFn :=
| release_noop
| release_cancel (id : Z) (once : nat).

Definition subscribe (w : world) : releaseFn * option nat * world :=
  let r := rl w in
  if closed r then (release_noop, None, w)
  else
    let id := nextID r in
    let ch := length (chans w) in
    let once := length (onces w) in
    (release_cancel id once, Some ch,
     {| rl := set_clients (<[id := ch]> (clients r)) (set_nextID (Int64.wrap (id + 1)) r);
        chans := chans w ++ [make_chan 1];
        onces := onces w ++ [false];
        contexts := contexts w |}).

(** [once.Do (f)]: [f] runs on the first call only. *)
Definition once_Do (once : nat) (f : world -> result world) (w : world) : result world :=
  match onces w !! once with
  | Some false => w' ← f w; Ok (with_onces (<[once := true]> (onces w')) w')
  | _ => Ok w
  end.

(** The body of the release closure, under the mutex. *)
Definition release_body (id : Z) (w : world) : result world :=
  match clients (rl w) !! id with
  | Some ch =>
      h ← chan_close ch (chans w);
      Ok (with_rl (set_clients (delete id (clients (rl w))) (rl w)) (with_chans h w))
  | None => Ok w
  end.

Definition call_release (f : releaseFn) (w : world) : result world :=
  match f with
  | release_noop => Ok w
  | release_cancel id once => once_Do once (release_body id) w
  end.

(** [Notify], ranging over the clients in the order [order]. *)
Definition Notify_in (order : list (Z * nat)) (w : world) : result world :=
  if closed (rl w) then Ok w
  else
    h ← for_range (fun _ ch h => chan_try_send ch h) order (chans w);
    Ok (with_chans h w).

Definition Notify (w : world) : result world :=
  Notify_in (map_to_list (clients (rl w))) w.

(** The part of [Close] before the mutex is taken. *)
Definition cancel_watcher (w : world) : world :=
  match watchCancel (rl w) with
  | Some ctx => with_contexts (<[ctx := true]> (contexts w)) w
  | None => w
  end.

(** The body of the loop of [Close]. *)
Definition close_body (id : Z) (ch : nat) (w : world) : result world :=
  h ← chan_close ch (chans w);
  Ok (with_rl (set_clients (delete id (clients (rl w))) (rl w)) (with_chans h w)).

(** The part of [Close] under the mutex. *)
Definition Close_locked_in (order : list (Z * nat)) (w : world) : result world :=
  if closed (rl w) then Ok w
  else
    for_range close_body order (with_rl (set_closed true (rl w)) w).

Definition Close_locked (w : world) : result world :=
  Close_locked_in (map_to_list (clients (rl w))) w.

Definition Close (w : world) : result world := Close_locked (cancel_watcher w).

Definition Enabled (r : Reloader) : bool := enabled r.

Definition SetEnabled (b : bool) (w : world) : world := with_rl (set_enabled b (rl w)) w.

(** ** watcher.go: Start and the polling goroutine *)

(** Where the goroutine of [Start] is: before its first read of the
    directory, in the [for]/[select] loop with its [lastFingerprint], or
    returned. *)
Inductive phase :=
| Spawned
| Polling (lastFingerprint : string)
| Exited.

Record goroutine := mkGoroutine { g_ctx : nat; g_phase : phase }.

(** [Start]: a fresh context, whose cancel function is stored in
    [watchCancel], and the goroutine that polls. The [fs.FS] handle is left
    implicit: each read of the goroutine is given the snapshot it sees. *)
Definition Start (w : world) : world * goroutine :=
  let ctx := length (contexts w) in
  (with_rl (set_watchCancel (Some ctx) (rl w)) (with_contexts (contexts w ++ [false]) w),
   mkGoroutine ctx Spawned).

(** What the goroutine does to the outside. *)
Inductive action :=
| DoNotify
| LogError (msg : string) (err : error).

(** What lets the goroutine advance: it reads the directory, seeing the
    snapshot [dir] (the first read, or a tick of the ticker), or its
    [select] takes [ctx.Done ()]. *)
Inductive wevent :=
| Scan (dir : FS)
| Done.

Definition watcher_step (p : phase) (ev : wevent) : phase * list action :=
  match p, ev with
  | Spawned, Scan dir =>
      let '(lastFingerprint, err) := directoryFingerprint dir in
      (Polling lastFingerprint,
       match err with
       | Some e => [LogError "dev reload watcher failed to read directory" e]
       | None => []
       end)
  | Spawned, Done => (Spawned, [])
  | Polling lastFingerprint, Done => (Exited, [DoNotify])
  | Polling lastFingerprint, Scan dir =>
      let '(fp, err) := directoryFingerprint dir in
      match err with
      | Some e =>
          (Polling lastFingerprint,
           [LogError "dev reload watcher failed to scan directory" e])
      | None =>
          if negb (String.eqb fp lastFingerprint)
          then (Polling fp, [DoNotify])
          else (Polling lastFingerprint, [])
      end
  | Exited, _ => (Exited, [])
  end.

Definition perform (a : action) (w : world) : result world :=
  match a with
  | DoNotify => Notify w
  | LogError _ _ => Ok w
  end.

Fixpoint perform_all (acts : list action) (w : world) : result world :=
  match acts with
  | [] => Ok w
  | a :: rest => w' ← perform a w; perform_all rest w'
  end.

(** [ctx.Done ()] can be taken only once the context is cancelled. *)
Definition ready (w : world) (g : goroutine) (ev : wevent) : bool :=
  match ev with
  | Scan _ => true
  | Done => match contexts w !! g_ctx g with Some true => true | _ => false end
  end.

Definition goroutine_step (ev : wevent) (w : world) (g : goroutine)
    : result (world * goroutine) :=
  if ready w g ev then
    let '(p, acts) := watcher_step (g_phase g) ev in
    w' ← perform_all acts w; Ok (w', mkGoroutine (g_ctx g) p)
  else Ok (w, g).

Fixpoint goroutine_run (evs : list wevent) (w : world) (g : goroutine)
    : result (world * goroutine) :=
  match evs with
  | [] => Ok (w, g)
  | ev :: rest =>
      st ← goroutine_step ev w g; goroutine_run rest (fst st) (snd st)
  end.

(** The actions of a run of the goroutine alone, oldest first. *)
Fixpoint watcher_trace (p : phase) (evs : list wevent) : phase * list action :=
  match evs with
  | [] => (p, [])
  | ev :: rest =>
      let '(p1, acts) := watcher_step p ev in
      let '(p2, acts') := watcher_trace p1 rest in
      (p2, acts ++ acts')
  end.

(** ** net/http *)

Definition LF : string := String (ascii_of_nat 10) EmptyString.

Record Request := mkRequest { Method : string }.

(** A response writer: whether it implements [http.Flusher], its header
    map, the status code once written, the arguments of the calls to
    [Write] and the number of calls to [Flush]. *)
Record ResponseWriter := mkResponseWriter {
  isFlusher : bool;
  header : gmap string (list string);
  status : option Z;
  written : list string;
  flushes : nat
}.

Definition StatusOK : Z := 200.
Definition StatusMethodNotAllowed : Z := 405.
Definition StatusGone : Z := 410.
Definition StatusInternalServerError : Z := 500.

Definition Header_Set (k v : string) (w : ResponseWriter) : ResponseWriter :=
  {| isFlusher := isFlusher w; header := <[k := [v]]> (header w);
     status := status w; written := written w; flushes := flushes w |}.

Definition Header_Del (k : string) (w : ResponseWriter) : ResponseWriter :=
  {| isFlusher := isFlusher w; header := delete k (header w);
     status := status w; written := written w; flushes := flushes w |}.

(** Only the first status code counts. *)
Definition WriteHeader (code : Z) (w : ResponseWriter) : ResponseWriter :=
  {| isFlusher := isFlusher w; header := header w;
     status := match status w with Some c => Some c | None => Some code end;
     written := written w; flushes := flushes w |}.

(** [Write] sends the status 200 first when none was written. *)
Definition Write (data : string) (w : ResponseWriter) : ResponseWriter :=
  {| isFlusher := isFlusher w; header := header w;
     status := match status w with Some c => Some c | None => Some StatusOK end;
     written := written w ++ [data]; flushes := flushes w |}.

Definition Flush (w : ResponseWriter) : ResponseWriter :=
  {| isFlusher := isFlusher w; header := header w; status := status w;
     written := written w; flushes := S (flushes w) |}.

Definition http_Error (w : ResponseWriter) (err : string) (code : Z) : ResponseWriter :=
  Write (err +:+ LF)
    (WriteHeader code
       (Header_Set "X-Content-Type-Options" "nosniff"
          (Header_Set "Content-Type" "text/plain; charset=utf-8"
             (Header_Del "Content-Length" w)))).

(** ** The streaming handler *)

Definition connected_line : string := ": connected" +:+ LF +:+ LF.
Definition reload_line : string := "data: reload" +:+ LF +:+ LF.

(** A connection is in the [for]/[select] loop of the handler, holding its
    release closure (deferred) and its channel, or the handler returned. *)
Inductive conn :=
| Streaming (w : ResponseWriter) (cancel : releaseFn) (ch : nat)
| Returned (w : ResponseWriter).

Definition conn_writer (c : conn) : ResponseWriter :=
  match c with Streaming w _ _ => w | Returned w => w end.

(** The handler up to its loop. [write_ok] tells whether the write of the
    first line succeeds; that is up to the connection. *)
Definition Handler (rq : Request) (w : ResponseWriter) (write_ok : bool) (wd : world)
    : result (conn * world) :=
  if negb (String.eqb (Method rq) "GET") then
    Ok (Returned (http_Error w "method not allowed" StatusMethodNotAllowed), wd)
  else if negb (isFlusher w) then
    Ok (Returned (http_Error w "streaming unsupported" StatusInternalServerError), wd)
  else
    let w := Header_Set "Connection" "keep-alive"
               (Header_Set "Cache-Control" "no-cache"
                  (Header_Set "Content-Type" "text/event-stream" w)) in
    let '(cancel, ch, wd) := subscribe wd in
    match ch with
    | None => Ok (Returned (WriteHeader StatusGone w), wd)
    | Some ch =>
        let w := Write connected_line w in
        if write_ok then Ok (Streaming (Flush w) cancel ch, wd)
        else wd' ← call_release cancel wd; Ok (Returned w, wd')
    end.

(** What the [select] of the loop takes: the request context is done, or
    the channel is ready (a token, or closed); [write_ok] is the outcome of
    the write that follows a token. *)
Inductive hevent :=
| ContextDone
| ChanReady (write_ok : bool).

Definition Handler_step (ev : hevent) (c : conn) (wd : world) : result (conn * world) :=
  match c with
  | Returned _ => Ok (c, wd)
  | Streaming w cancel ch =>
      match ev with
      | ContextDone => wd' ← call_release cancel wd; Ok (Returned w, wd')
      | ChanReady write_ok =>
          match chan_recv ch (chans wd) with
          | None => Ok (c, wd)
          | Some (false, h) =>
              wd' ← call_release cancel (with_chans h wd); Ok (Returned w, wd')
          | Some (true, h) =>
              let w := Write reload_line w in
              if write_ok then Ok (Streaming (Flush w) cancel ch, with_chans h wd)
              else wd' ← call_release cancel (with_chans h wd); Ok (Returned w, wd')
          end
      end
  end.

(** Whether the step of the handler receives a signal from its channel. *)
Definition receives_signal (ev : hevent) (c : conn) (wd : world) : bool :=
  match c, ev with
  | Streaming _ _ ch, ChanReady _ =>
      match chan_recv ch (chans wd) with Some (true, _) => true | _ => false end
  | _, _ => false
  end.

(** ** The cache middleware *)

Definition CacheMiddleware (r : Reloader)
    (handler : Request -> ResponseWriter -> ResponseWriter)
    (rq : Request) (w : ResponseWriter) : ResponseWriter :=
  if negb (Enabled r) then handler rq w
  else
    handler rq
      (Header_Set "Cache-Control"
         ("stale-while-revalidate, max-age=" +:+ format_int (maxAge r)) w).

(** ** Executions

    Every method body runs under the mutex, so an execution of the program
    is a sequence of calls. A [system] is the shared [world] and the
    subscriptions handed out so far, in order: callers can only invoke the
    release closures that [subscribe] returned to them, and only receive
    from the channels they were given. *)

Record system := mkSystem {
  sys_world : world;
  sys_subs : list (releaseFn * option nat)
}.

Inductive op :=
| OpSubscribe
| OpRelease (k : nat)
| OpRecv (k : nat)
| OpNotify
| OpCancelWatcher
| OpCloseLocked
| OpClose
| OpStart
| OpSetEnabled (b : bool).

Definition step (o : op) (s : system) : result system :=
  let w := sys_world s in
  match o with
  | OpSubscribe =>
      let '(cancel, ch, w') := subscribe w in
      Ok (mkSystem w' (sys_subs s ++ [(cancel, ch)]))
  | OpRelease k =>
      match sys_subs s !! k with
      | Some (cancel, _) => w' ← call_release cancel w; Ok (mkSystem w' (sys_subs s))
      | None => Ok s
      end
  | OpRecv k =>
      match sys_subs s !! k with
      | Some (_, Some ch) =>
          match chan_recv ch (chans w) with
          | Some (_, h) => Ok (mkSystem (with_chans h w) (sys_subs s))
          | None => Ok s
          end
      | _ => Ok s
      end
  | OpNotify => w' ← Notify w; Ok (mkSystem w' (sys_subs s))
  | OpCancelWatcher => Ok (mkSystem (cancel_watcher w) (sys_subs s))
  | OpCloseLocked => w' ← Close_locked w; Ok (mkSystem w' (sys_subs s))
  | OpClose => w' ← Close w; Ok (mkSystem w' (sys_subs s))
  | OpStart => Ok (mkSystem (fst (Start w)) (sys_subs s))
  | OpSetEnabled b => Ok (mkSystem (SetEnabled b w) (sys_subs s))
  end.

Fixpoint run (t : list op) (s : system) : result system :=
  match t with
  | [] => Ok s
  | o :: t' => s' ← step o s; run t' s'
  end.

Definition init (config : Config.t) : system := mkSystem (new_world config) [].

Definition reachable (s : system) : Prop :=
  exists config t, run t (init config) = Ok s.

(** A connection of the streaming handler among the other callers: the
    steps of its loop interleaved with calls of the others. The number is
    the count of signals that the handler received. *)
Inductive sched :=
| Other (o : op)
| Conn (ev : hevent).

Fixpoint Handler_run (sch : list sched) (c : conn) (s : system)
    : result (conn * system * nat) :=
  match sch with
  | [] => Ok (c, s, O)
  | Other o :: rest =>
      s' ← step o s;
      Handler_run rest c s'
  | Conn ev :: rest =>
      st ← Handler_step ev c (sys_world s);
      r ← Handler_run rest (fst st) (mkSystem (snd st) (sys_subs s));
      Ok (fst (fst r), snd (fst r),
          ((if receives_signal ev c (sys_world s) then 1 else 0) + snd r)%nat)
  end.

(** ** Invariants *)

Definition chan_open (h : list chan) (ch : nat) : Prop :=
  exists c, h !! ch = Some c /\ chan_closed c = false.

Definition chan_is_closed (h : list chan) (ch : nat) : Prop :=
  exists c, h !! ch = Some c /\ chan_closed c = true.

(** The state of the reloader is well formed: a closed reloader has no
    client; every client has its own, open channel; every channel has one
    slot. *)
Record wf (w : world) : Prop := mkWf {
  wf_closed : closed (rl w) = true -> clients (rl w) = ∅;
  wf_open : forall id ch, clients (rl w) !! id = Some ch -> chan_open (chans w) ch;
  wf_inj : forall id1 id2 ch,
      clients (rl w) !! id1 = Some ch -> clients (rl w) !! id2 = Some ch -> id1 = id2;
  wf_slot : forall ch c, chans w !! ch = Some c ->
      chan_cap c = 1%nat /\ (chan_len c <= 1)%nat
}.

(** Identifiers have not wrapped around: those handed out are below the
    next one, and every release closure has its own [sync.Once]. *)
Record ids_fresh (s : system) : Prop := mkIdsFresh {
  if_next : 0 <= nextID (rl (sys_world s));
  if_subs : forall k id once ch, sys_subs s !! k = Some (release_cancel id once, ch) ->
      id < nextID (rl (sys_world s)) /\ (once < length (onces (sys_world s)))%nat
}.

(** The [k]-th subscription is live: its release closure has not run, the
    reloader is open and still maps its identifier to its channel, and no
    other subscription shares its identifier or its [sync.Once]. *)
Record live (k : nat) (id : Z) (once ch : nat) (s : system) : Prop := mkLive {
  live_sub : sys_subs s !! k = Some (release_cancel id once, Some ch);
  live_once : onces (sys_world s) !! once = Some false;
  live_open : closed (rl (sys_world s)) = false;
  live_client : clients (rl (sys_world s)) !! id = Some ch;
  live_next : id < nextID (rl (sys_world s)) /\ 0 <= nextID (rl (sys_world s));
  live_other : forall k' id' once' ch',
      k' <> k -> sys_subs s !! k' = Some (release_cancel id' once', ch') ->
      id' <> id /\ once' <> once
}.

(** The [k]-th subscription is over: its channel is closed, and its release
    closure has run or the reloader is closed. *)
Record over (k : nat) (id : Z) (once ch : nat) (s : system) : Prop := mkOver {
  over_sub : sys_subs s !! k = Some (release_cancel id once, Some ch);
  over_closed : chan_is_closed (chans (sys_world s)) ch;
  over_done : onces (sys_world s) !! once = Some true
              \/ closed (rl (sys_world s)) = true
}.

(** What each call does to a well-formed system. *)
Definition eff_chans (s s' : system) : Prop :=
  exists h',
    s' = mkSystem (with_chans h' (sys_world s)) (sys_subs s)
    /\ length h' = length (chans (sys_world s))
    /\ forall l c, chans (sys_world s) !! l = Some c ->
         exists c', h' !! l = Some c' /\ chan_closed c' = chan_closed c.

Definition eff_misc (s s' : system) : Prop :=
  exists r' ctxs',
    s' = mkSystem (mkWorld r' (chans (sys_world s)) (onces (sys_world s)) ctxs')
                  (sys_subs s)
    /\ closed r' = closed (rl (sys_world s))
    /\ nextID r' = nextID (rl (sys_world s))
    /\ clients r' = clients (rl (sys_world s)).

Definition eff_sub (s s' : system) : Prop :=
  let w := sys_world s in
  (closed (rl w) = true /\ s' = mkSystem w (sys_subs s ++ [(release_noop, None)]))
  \/ (closed (rl w) = false
      /\ s' = mkSystem
                {| rl := set_clients (<[nextID (rl w) := length (chans w)]> (clients (rl w)))
                           (set_nextID (Int64.wrap (nextID (rl w) + 1)) (rl w));
                   chans := chans w ++ [make_chan 1];
                   onces := onces w ++ [false];
                   contexts := contexts w |}
                (sys_subs s
                 ++ [(release_cancel (nextID (rl w)) (length (onces w)),
                      Some (length (chans w)))])).

Definition eff_rel (k : nat) (s s' : system) : Prop :=
  let w := sys_world s in
  match sys_subs s !! k with
  | Some (release_cancel id o, _) =>
      match onces w !! o with
      | Some false =>
          match clients (rl w) !! id with
          | Some ch =>
              exists c, chans w !! ch = Some c /\ chan_closed c = false
                /\ s' = mkSystem
                          (with_onces (<[o := true]> (onces w))
                             (with_rl (set_clients (delete id (clients (rl w))) (rl w))
                                (with_chans (<[ch := shut c]> (chans w)) w)))
                          (sys_subs s)
          | None => s' = mkSystem (with_onces (<[o := true]> (onces w)) w) (sys_subs s)
          end
      | _ => s' = s
      end
  | _ => s' = s
  end.

Definition eff_close (s s' : system) : Prop :=
  let w := sys_world s in
  (closed (rl w) = true /\ s' = s)
  \/ (closed (rl w) = false
      /\ exists h',
           s' = mkSystem (with_rl (set_clients ∅ (set_closed true (rl w))) (with_chans h' w))
                         (sys_subs s)
           /\ length h' = length (chans w)
           /\ forall l c, chans w !! l = Some c ->
                ((exists id, clients (rl w) !! id = Some l) -> h' !! l = Some (shut c))
                /\ ((forall id, clients (rl w) !! id <> Some l) -> h' !! l = Some c)).

Definition op_effect (o : op) (s s' : system) : Prop :=
  match o with
  | OpSubscribe => eff_sub s s'
  | OpRelease k => eff_rel k s s'
  | OpRecv _ | OpNotify => eff_chans s s'
  | OpCancelWatcher | OpStart | OpSetEnabled _ => eff_misc s s'
  | OpCloseLocked => eff_close s s'
  | OpClose => exists s1, eff_misc s s1 /\ eff_close s1 s'
  end.

(** Whether a call in the trace releases the [k]-th subscription or closes
    the reloader. *)
Definition closes (k : nat) (o : op) : bool :=
  match o with
  | OpRelease k' => Nat.eqb k' k
  | OpCloseLocked | OpClose => true
  | _ => false
  end.

(** The bytes that the walk writes for a list of tracked files. *)
Definition serialize (fs : list (string * Time * Z)) : string :=
  fold_right
    (fun f acc => fingerprint_record (fst (fst f)) (UnixNano (snd (fst f))) (snd f) +:+ acc)
    "" fs.



(** [n] calls of [Notify] in a row. *)
Fixpoint Notify_times (n : nat) (w : world) : result world :=
  match n with
  | O => Ok w
  | S n' => w' ← Notify w; Notify_times n' w'
  end.

(** Concrete states: the reloader of the example program after one
    subscription, and after a [Close] that follows it. *)
Definition demo_config : Config.t := Config.mk "/dev/reload" true 3600000000000.

Definition world_one_client : world :=
  mkWorld (set_clients {[0 := 0%nat]} (set_nextID 1 (New demo_config)))
          [make_chan 1] [false] [].

Definition system_one_client : system :=
  mkSystem world_one_client [(release_cancel 0 0, Some 0%nat)].

Definition system_closed : system :=
  mkSystem (mkWorld (set_closed true (set_nextID 1 (New demo_config)))
                    [mkChan 1 0 true] [false] [])
           [(release_cancel 0 0, Some 0%nat)].



Definition tree_a : FS :=
  inr (Dir [("a.txt", File (inr (mkFileInfo (mkTime 1700000000 0) 3)))] None).

(** A writer as the server hands it to a handler, and a schedule of one
    connection among notifications. *)
Definition fresh_writer : ResponseWriter := mkResponseWriter true ∅ None [] 0.

Definition demo_schedule : list sched :=
  [Other OpNotify; Conn (ChanReady true); Other OpNotify; Other OpNotify;
   Conn (ChanReady true); Conn (ChanReady true); Conn ContextDone].

(** Whether the channel at [ch] is closed, and the number of calls of an
    execution that close it. *)
Definition is_closed_b (h : list chan) (ch : nat) : bool :=
  match h !! ch with Some c => chan_closed c | None => false end.

Fixpoint closings (ch : nat) (t : list op) (s : system) : nat :=
  match t with
  | [] => O
  | o :: t' =>
      match step o s with
      | Ok s' =>
          ((if negb (is_closed_b (chans (sys_world s)) ch)
               && is_closed_b (chans (sys_world s')) ch
            then 1 else 0)
           + closings ch t' s')%nat
      | Panic => O
      end
  end.

(** An execution for the life of a subscription: a first client and a
    notification, then the subscription, then calls among which its release
    closure is called twice and the reloader is closed. *)
Definition system_after (t : list op) (s : system) : system :=
  match run t s with Ok s' => s' | Panic => s end.

Definition demo_history : list op := [OpSubscribe; OpNotify].

Definition demo_calls : list op :=
  [OpNotify; OpRecv 1; OpRelease 1; OpClose; OpRelease 1; OpRelease 0; OpSubscribe].

(** A maximal age of 16777216.999999999 seconds (some 194 days). *)
Definition long_config : Config.t := Config.mk "/dev/reload" true 16777216999999999.

(** Two clients, for the order of iteration. *)
Definition system_two_clients : system :=
  system_after [OpSubscribe; OpSubscribe] (init demo_config).

(** The two functions that [ParseTemplate] registers for the templates:
    each reads the reloader when the template calls it. *)
Definition LiveReloadEnabled (w : world) : bool := enabled (rl w).

Definition LiveReloadRoute (w : world) : string := route (rl w).

(** The flag that the last [SetEnabled] of an execution set, [b] if there
    was none. *)
Fixpoint last_enabled (t : list op) (b : bool) : bool :=
  match t with
  | [] => b
  | OpSetEnabled b' :: t' => last_enabled t' b'
  | _ :: t' => last_enabled t' b
  end.

Definition demo_toggles : list op :=
  [OpSetEnabled false; OpSubscribe; OpNotify; OpSetEnabled true; OpClose].



(** Snapshots for the watcher: [tree_a] with an empty directory more, and
    with the file resized. *)
Definition tree_a_with_dir : FS :=
  inr (Dir [("a.txt", File (inr (mkFileInfo (mkTime 1700000000 0) 3)));
            ("cache", Dir [] None)] None).

Definition tree_a_resized : FS :=
  inr (Dir [("a.txt", File (inr (mkFileInfo (mkTime 1700000005 0) 5)))] None).

(** A reloader whose watcher was started, and the goroutine of that watcher
    in its loop. *)
Definition system_watching : system :=
  system_after [OpSubscribe; OpStart; OpNotify] (init demo_config).

Definition goroutine_polling : goroutine := mkGoroutine 0 (Polling "0000").

(** The subscription of a connection of the handler, which no other caller
    holds: its release closure has not run, the reloader is open and maps
    its identifier to its channel, and no subscription handed out to the
    others shares its identifier or its [sync.Once]. *)
Record held (id : Z) (once ch : nat) (s : system) : Prop := mkHeld {
  held_once : onces (sys_world s) !! once = Some false;
  held_open : closed (rl (sys_world s)) = false;
  held_client : clients (rl (sys_world s)) !! id = Some ch;
  held_next : id < nextID (rl (sys_world s)) /\ 0 <= nextID (rl (sys_world s));
  held_other : forall k' id' once' ch',
      sys_subs s !! k' = Some (release_cancel id' once', ch') ->
      id' <> id /\ once' <> once
}.

(** The channel of a connection is closed, and the connection, if it is
    still in its loop, is on that channel. *)
Definition conn_closed (ch : nat) (c : conn) (s : system) : Prop :=
  chan_is_closed (chans (sys_world s)) ch
  /\ match c with Streaming _ _ ch0 => ch0 = ch | Returned _ => True end.

(** The headers of an event stream. *)
Definition stream_headers (h : gmap string (list string)) : gmap string (list string) :=
  <["Connection" := ["keep-alive"]]>
    (<["Cache-Control" := ["no-cache"]]>
       (<["Content-Type" := ["text/event-stream"]]> h)).

(** A schedule in which other clients come and go while a connection
    streams. *)
Definition busy_schedule : list sched :=
  [Other OpSubscribe; Other OpNotify; Conn (ChanReady true); Other (OpRelease 0);
   Other OpNotify; Other (OpRelease 1); Conn (ChanReady true)].

(** The subscriptions handed out are separate: each has a channel that
    exists, and no two share an identifier, a [sync.Once] or a channel. *)
Definition subs_separate (s : system) : Prop :=
  (forall k id once och,
      sys_subs s !! k = Some (release_cancel id once, och) ->
      exists ch, och = Some ch /\ (ch < length (chans (sys_world s)))%nat)
  /\ (forall k1 k2 id1 id2 o1 o2 c1 c2,
        k1 <> k2 ->
        sys_subs s !! k1 = Some (release_cancel id1 o1, c1) ->
        sys_subs s !! k2 = Some (release_cancel id2 o2, c2) ->
        id1 <> id2 /\ o1 <> o2 /\ c1 <> c2).

Definition demo_many : list op :=
  [OpSubscribe; OpSubscribe; OpRelease 0; OpNotify; OpSubscribe; OpRelease 0; OpSubscribe].

(** * Properties *)

Example sha1_abc :
  Hex.EncodeToString (SHA1.sum (bytes_of_string "abc"))
  = "a9993e364706816aba3e25717850c26c9cd0d89d".
Proof. vm_compute. reflexivity. Qed.

Example sha1_empty :
  Hex.EncodeToString (SHA1.sum (bytes_of_string ""))
  = "da39a3ee5e6b4b0d3255bfef95601890afd80709".
Proof. vm_compute. reflexivity. Qed.

Example sha1_two_blocks :
  Hex.EncodeToString (SHA1.sum (bytes_of_string
    "abcdbcdecdefdefgefghfghighijhijkijkljklmklmnlmnomnopnopq"))
  = "84983e441c3bd26ebaae4aa1f95129e5e54670f1".
Proof. vm_compute. reflexivity. Qed.

Example format_int_ex :
  format_int 0 = "0" /\ format_int 1700000000123456789 = "1700000000123456789"
  /\ format_int (-42) = "-42".
Proof. vm_compute. repeat split. Qed.

(** ** The fingerprint *)

Arguments SHA1.sum : simpl never.
Arguments Hex.EncodeToString : simpl never.
Arguments format_int : simpl never.

Lemma string_app_cons (x : ascii) (a b : string) :
  String x a +:+ b = String x (a +:+ b).
Proof. reflexivity. Qed.

Lemma string_app_assoc (a b c : string) : (a +:+ b) +:+ c = a +:+ (b +:+ c).
Proof.
  induction a as [|x a IH]; [reflexivity |].
  now rewrite !string_app_cons, IH.
Qed.

Lemma string_app_nil_r (a : string) : a +:+ "" = a.
Proof.
  induction a as [|x a IH]; [reflexivity |].
  now rewrite string_app_cons, IH.
Qed.

Lemma serialize_app (l1 l2 : list (string * Time * Z)) :
  serialize (l1 ++ l2) = serialize l1 +:+ serialize l2.
Proof.
  induction l1 as [|f l1 IH]; simpl; [reflexivity |].
  now rewrite IH, string_app_assoc.
Qed.

(** Induction on a tree, with the property for the entries of a directory. *)
Lemma DirEntry_tree_ind (P : DirEntry -> Prop) :
  (forall info, P (File info)) ->
  (forall dirs readErr, Forall (fun nd => P (snd nd)) dirs -> P (Dir dirs readErr)) ->
  forall d, P d.
Proof.
  intros HF HD. fix IH 1. intros [info | dirs readErr].
  - apply HF.
  - apply HD. induction dirs as [|[n d] rest IHrest]; constructor.
    + apply IH.
    + apply IHrest.
Qed.

Lemma walkEntries_tracked (name : string) (dirs : list (string * DirEntry)) :
  Forall (fun nd => forall name h h',
            walkDir fingerprint_visit name (snd nd) h = (None, h') ->
            h' = h +:+ serialize (tracked name (snd nd))) dirs ->
  forall h h',
    walkEntries (fun n1 d1 => walkDir fingerprint_visit (path_Join name n1) d1) dirs h
    = (None, h') ->
    h' = h +:+ serialize
                 (flat_map (fun nd => tracked (path_Join name (fst nd)) (snd nd)) dirs).
Proof.
  induction 1 as [|[n d] rest Hd Hrest IH]; intros h h' Hw; simpl in *.
  - injection Hw as <-. now rewrite string_app_nil_r.
  - destruct (walkDir fingerprint_visit (path_Join name n) d h) as [[e|] h1] eqn:E;
      [discriminate |].
    apply Hd in E. apply IH in Hw. subst.
    now rewrite serialize_app, string_app_assoc.
Qed.

(** A walk that succeeds has written the records of the tracked files, and
    nothing else. *)
Lemma walkDir_tracked (d : DirEntry) :
  forall name h h',
    walkDir fingerprint_visit name d h = (None, h') ->
    h' = h +:+ serialize (tracked name d).
Proof.
  induction d as [info | dirs readErr IH] using DirEntry_tree_ind; intros name h h' Hw.
  - simpl in Hw. destruct info as [e | fi]; [discriminate |].
    injection Hw as <-. simpl. now rewrite string_app_nil_r.
  - simpl in Hw. destruct readErr as [e|]; [discriminate |].
    now apply (walkEntries_tracked name dirs IH).
Qed.

Lemma directoryFingerprint_tracked (dir : FS) (fp : string) :
  directoryFingerprint dir = (fp, None) ->
  fp = Hex.EncodeToString (SHA1.sum (bytes_of_string (serialize (tracked_files dir)))).
Proof.
  unfold directoryFingerprint, WalkDir. destruct dir as [e | d].
  - unfold fingerprint_visit. discriminate.
  - destruct (walkDir fingerprint_visit "." d "") as [[e|] h] eqn:E; [discriminate |].
    intros [= <-]. apply walkDir_tracked in E. now subst.
Qed.




(** ** Channels *)

Lemma chan_try_send_open (h : list chan) (ch : nat) (c : chan) :
  h !! ch = Some c -> chan_closed c = false ->
  chan_try_send ch h = Ok (<[ch := deposit c]> h).
Proof.
  intros Hl Hc. unfold chan_try_send, deposit. rewrite Hl, Hc.
  destruct (chan_len c <? chan_cap c)%nat; [reflexivity |].
  now rewrite list_insert_id.
Qed.

Lemma chan_close_open (h : list chan) (ch : nat) (c : chan) :
  h !! ch = Some c -> chan_closed c = false ->
  chan_close ch h = Ok (<[ch := shut c]> h).
Proof. intros Hl Hc. unfold chan_close. now rewrite Hl, Hc. Qed.

Lemma deposit_slot (c : chan) :
  chan_cap c = 1%nat /\ (chan_len c <= 1)%nat ->
  chan_cap (deposit c) = 1%nat /\ (chan_len (deposit c) <= 1)%nat.
Proof.
  intros [Hc Hl]. unfold deposit.
  destruct (chan_len c <? chan_cap c)%nat eqn:E; simpl; [|auto].
  apply Nat.ltb_lt in E. lia.
Qed.

Lemma deposit_full (c : chan) :
  chan_cap c = 1%nat -> chan_len (deposit c) = Nat.max 1 (chan_len c).
Proof.
  intros Hc. unfold deposit.
  destruct (chan_len c <? chan_cap c)%nat eqn:E; simpl.
  - apply Nat.ltb_lt in E. lia.
  - apply Nat.ltb_ge in E. lia.
Qed.

Lemma deposit_closed (c : chan) :
  chan_closed c = false -> chan_closed (deposit c) = false.
Proof. intros H. unfold deposit. now destruct (chan_len c <? chan_cap c)%nat. Qed.

Lemma deposit_idem (c : chan) :
  chan_cap c = 1%nat -> chan_closed c = false -> deposit (deposit c) = deposit c.
Proof.
  intros Hc Ho. unfold deposit at 2 3.
  destruct (chan_len c <? chan_cap c)%nat eqn:E.
  - unfold deposit. simpl. rewrite Hc.
    apply Nat.ltb_lt in E. replace (chan_len c) with 0%nat by lia. reflexivity.
  - unfold deposit. now rewrite E.
Qed.

(** ** The loops of Notify and Close *)

Lemma notify_loop (order : list (Z * nat)) :
  forall h : list chan,
    (forall id ch, (id, ch) ∈ order -> chan_open h ch) ->
    (forall ch c, h !! ch = Some c -> chan_cap c = 1%nat /\ (chan_len c <= 1)%nat) ->
    exists h',
      for_range (fun (_ : Z) ch h => chan_try_send ch h) order h = Ok h'
      /\ length h' = length h
      /\ forall l c, h !! l = Some c ->
           h' !! l = Some (if decide (l ∈ order.*2) then deposit c else c).
Proof.
  induction order as [|[id ch] rest IH]; intros h Hopen Hslot.
  - exists h. split; [done | split; [done |]]. intros l c Hl.
    destruct (decide (l ∈ [])) as [Hin|_]; [|done]. by apply elem_of_nil in Hin.
  - destruct (Hopen id ch) as (c0 & Hc0 & Ho0); [left |].
    assert (Hlt : (ch < length h)%nat) by (eapply lookup_lt_Some; eauto).
    destruct (IH (<[ch := deposit c0]> h)) as (h' & Hrun & Hlen & Hspec).
    + intros id' ch' Hin. destruct (decide (ch' = ch)) as [->|Hne].
      * exists (deposit c0). split; [by apply list_lookup_insert_eq |].
        by apply deposit_closed.
      * destruct (Hopen id' ch') as (c' & Hc' & Ho'); [by right |].
        exists c'. split; [|done]. by rewrite list_lookup_insert_ne.
    + intros ch' c' Hl. destruct (decide (ch' = ch)) as [->|Hne].
      * rewrite list_lookup_insert_eq in Hl by done. injection Hl as <-.
        apply deposit_slot. eauto.
      * rewrite list_lookup_insert_ne in Hl by done. eauto.
    + exists h'. split; [|split].
      * cbn [for_range]. rewrite (chan_try_send_open h ch c0) by done. exact Hrun.
      * by rewrite Hlen, length_insert.
      * intros l c Hl. destruct (decide (l = ch)) as [->|Hne].
        -- rewrite (Hspec ch (deposit c0)) by (by apply list_lookup_insert_eq).
           assert (c = c0) as -> by congruence.
           rewrite fmap_cons. cbn [snd].
           destruct (decide (ch ∈ ch :: rest.*2)) as [_|Hn]; [|exfalso; apply Hn; left].
           destruct (decide (ch ∈ rest.*2)); [|done].
           f_equal. apply deposit_idem; [|done]. by apply (Hslot ch c0).
        -- rewrite (Hspec l c) by (by rewrite list_lookup_insert_ne).
           rewrite fmap_cons. cbn [snd].
           destruct (decide (l ∈ rest.*2)) as [Hin|Hnin];
             destruct (decide (l ∈ ch :: rest.*2)) as [Hin'|Hnin']; try done.
           ++ exfalso. apply Hnin'. by right.
           ++ exfalso. apply elem_of_cons in Hin' as [?|?]; done.
Qed.

Lemma close_body_open (id : Z) (ch : nat) (w : world) (c : chan) :
  chans w !! ch = Some c -> chan_closed c = false ->
  close_body id ch w
  = Ok (with_rl (set_clients (delete id (clients (rl w))) (rl w))
                (with_chans (<[ch := shut c]> (chans w)) w)).
Proof. intros Hl Hc. unfold close_body. by rewrite (chan_close_open _ ch c). Qed.

Lemma close_loop (order : list (Z * nat)) :
  forall w : world,
    NoDup (order.*2) ->
    (forall id ch, (id, ch) ∈ order -> chan_open (chans w) ch) ->
    exists m' h',
      for_range close_body order w
      = Ok (with_rl (set_clients m' (rl w)) (with_chans h' w))
      /\ length h' = length (chans w)
      /\ (forall i, m' !! i = if decide (i ∈ order.*1) then None else clients (rl w) !! i)
      /\ forall l c, chans w !! l = Some c ->
           h' !! l = Some (if decide (l ∈ order.*2) then shut c else c).
Proof.
  induction order as [|[id ch] rest IH]; intros w Hnd Hopen.
  - exists (clients (rl w)), (chans w). split; [|split; [done | split]].
    + by destruct w as [[]].
    + intros i. destruct (decide (i ∈ [])) as [Hin|_]; [|done]. by apply elem_of_nil in Hin.
    + intros l c Hl.
      destruct (decide (l ∈ [])) as [Hin|_]; [|done]. by apply elem_of_nil in Hin.
  - rewrite fmap_cons in Hnd. cbn [snd] in Hnd. apply NoDup_cons in Hnd as [Hnin Hnd].
    destruct (Hopen id ch) as (c0 & Hc0 & Ho0); [left |].
    assert (Hlt : (ch < length (chans w))%nat) by (eapply lookup_lt_Some; eauto).
    set (w1 := with_rl (set_clients (delete id (clients (rl w))) (rl w))
                       (with_chans (<[ch := shut c0]> (chans w)) w)).
    destruct (IH w1 Hnd) as (m' & h' & Hrun & Hlen & Hm & Hh).
    { intros id' ch' Hin. destruct (Hopen id' ch') as (c' & Hc' & Ho'); [by right |].
      exists c'. split; [|done]. subst w1. cbn.
      rewrite list_lookup_insert_ne; [done |]. intros ->.
      apply Hnin. apply list_elem_of_fmap. by exists (id', ch'). }
    exists m', h'. split; [|split; [|split]].
    + cbn [for_range]. rewrite (close_body_open id ch w c0) by done. exact Hrun.
    + rewrite Hlen. subst w1. cbn. by rewrite length_insert.
    + intros i. rewrite Hm. subst w1. cbn. rewrite ?fmap_cons. cbn [fst].
      destruct (decide (i ∈ rest.*1)) as [Hin|Hnin'];
        destruct (decide (i ∈ id :: rest.*1)) as [Hin'|Hnin'']; try done.
      * exfalso. apply Hnin''. by right.
      * apply elem_of_cons in Hin' as [->|?]; [|done]. by rewrite lookup_delete_eq.
      * rewrite lookup_delete_ne; [done |]. intros ->. apply Hnin''. left.
    + intros l c Hl. rewrite fmap_cons. cbn [snd].
      destruct (decide (l = ch)) as [->|Hne].
      * assert (c = c0) as -> by congruence.
        rewrite (Hh ch (shut c0)) by (subst w1; cbn; by apply list_lookup_insert_eq).
        destruct (decide (ch ∈ rest.*2)); [done |].
        destruct (decide (ch ∈ ch :: rest.*2)) as [_|Hn]; [done |].
        exfalso. apply Hn. left.
      * rewrite (Hh l c) by (subst w1; cbn; by rewrite list_lookup_insert_ne).
        destruct (decide (l ∈ rest.*2)) as [Hin|Hnin'];
          destruct (decide (l ∈ ch :: rest.*2)) as [Hin'|Hnin'']; try done.
        -- exfalso. apply Hnin''. by right.
        -- exfalso. apply elem_of_cons in Hin' as [?|?]; done.
Qed.

(** ** Well-formed states *)

Lemma registered_iff (m : gmap Z nat) (l : nat) :
  l ∈ (map_to_list m).*2 <-> exists id, m !! id = Some l.
Proof.
  rewrite list_elem_of_fmap. split.
  - intros ([id ch] & -> & Hin). exists id. by apply elem_of_map_to_list.
  - intros (id & Hid). exists (id, l). split; [done |]. by apply elem_of_map_to_list.
Qed.

Lemma key_listed_iff (m : gmap Z nat) (i : Z) :
  i ∈ (map_to_list m).*1 <-> exists ch, m !! i = Some ch.
Proof.
  rewrite list_elem_of_fmap. split.
  - intros ([id ch] & -> & Hin). exists ch. by apply elem_of_map_to_list.
  - intros (ch & Hid). exists (i, ch). split; [done |]. by apply elem_of_map_to_list.
Qed.

Lemma wf_NoDup (w : world) : wf w -> NoDup (map_to_list (clients (rl w))).*2.
Proof.
  intros Hwf. apply NoDup_fmap_2_strong; [|apply NoDup_map_to_list].
  intros [i1 c1] [i2 c2] H1 H2 Heq. cbn in Heq. subst c2.
  apply elem_of_map_to_list in H1, H2.
  by rewrite (wf_inj w Hwf i1 i2 c1 H1 H2).
Qed.

Lemma world_eta_chans (w : world) : with_chans (chans w) w = w.
Proof. by destruct w. Qed.

Lemma wf_new_world (config : Config.t) : wf (new_world config).
Proof.
  constructor; cbn.
  - done.
  - intros id ch H. by rewrite lookup_empty in H.
  - intros id1 id2 ch H. by rewrite lookup_empty in H.
  - intros ch c H. by rewrite lookup_nil in H.
Qed.

Lemma subscribe_closed (w : world) :
  closed (rl w) = true -> subscribe w = (release_noop, None, w).
Proof. intros H. unfold subscribe. by rewrite H. Qed.

Lemma subscribe_open (w : world) :
  closed (rl w) = false ->
  subscribe w
  = (release_cancel (nextID (rl w)) (length (onces w)), Some (length (chans w)),
     {| rl := set_clients (<[nextID (rl w) := length (chans w)]> (clients (rl w)))
                (set_nextID (Int64.wrap (nextID (rl w) + 1)) (rl w));
        chans := chans w ++ [make_chan 1];
        onces := onces w ++ [false];
        contexts := contexts w |}).
Proof. intros H. unfold subscribe. by rewrite H. Qed.

Lemma wf_subscribe (w : world) : wf w -> wf (subscribe w).2.
Proof.
  intros Hwf. destruct (closed (rl w)) eqn:Hcl.
  - by rewrite subscribe_closed.
  - rewrite subscribe_open by done. cbn. constructor; cbn.
    + congruence.
    + intros id ch. destruct (decide (id = nextID (rl w))) as [->|Hne].
      * rewrite lookup_insert_eq. intros [= <-]. exists (make_chan 1).
        split; [|done]. by rewrite list_lookup_middle.
      * rewrite lookup_insert_ne by done. intros H.
        destruct (wf_open w Hwf id ch H) as (c & Hc & Ho).
        exists c. split; [|done]. rewrite lookup_app_l; [done |].
        eapply lookup_lt_Some; eauto.
    + intros id1 id2 ch H1 H2.
      destruct (decide (id1 = nextID (rl w))) as [->|Hne1];
        destruct (decide (id2 = nextID (rl w))) as [->|Hne2]; try done.
      * rewrite lookup_insert_eq in H1. rewrite lookup_insert_ne in H2 by done.
        injection H1 as <-. destruct (wf_open w Hwf id2 _ H2) as (c & Hc & _).
        apply lookup_lt_Some in Hc. lia.
      * rewrite lookup_insert_eq in H2. rewrite lookup_insert_ne in H1 by done.
        injection H2 as <-. destruct (wf_open w Hwf id1 _ H1) as (c & Hc & _).
        apply lookup_lt_Some in Hc. lia.
      * rewrite lookup_insert_ne in H1, H2 by done. by eapply (wf_inj w Hwf).
    + intros ch c H. apply lookup_app_Some in H as [H | [_ H]].
      * by apply (wf_slot w Hwf ch).
      * destruct (ch - length (chans w))%nat; cbn in H; [|by rewrite ?lookup_nil in H].
        injection H as <-. cbn. lia.
Qed.

(** Closing the channel of a client and removing its entry. *)
Lemma wf_remove_client (w : world) (id : Z) (ch : nat) (c : chan) :
  wf w -> clients (rl w) !! id = Some ch -> chans w !! ch = Some c ->
  wf (with_rl (set_clients (delete id (clients (rl w))) (rl w))
              (with_chans (<[ch := shut c]> (chans w)) w)).
Proof.
  intros Hwf Hid Hch. constructor; cbn.
  - intros Hcl. apply (wf_closed w Hwf) in Hcl. rewrite Hcl in Hid.
    by rewrite lookup_empty in Hid.
  - intros id' ch'. destruct (decide (id' = id)) as [->|Hne].
    + by rewrite lookup_delete_eq.
    + rewrite lookup_delete_ne by done. intros H.
      destruct (wf_open w Hwf id' ch' H) as (c' & Hc' & Ho').
      exists c'. split; [|done]. rewrite list_lookup_insert_ne; [done |].
      intros ->. apply Hne. by apply (wf_inj w Hwf id' id ch').
  - intros id1 id2 ch' H1 H2.
    apply lookup_delete_Some in H1 as [_ H1]. apply lookup_delete_Some in H2 as [_ H2].
    by apply (wf_inj w Hwf id1 id2 ch').
  - intros ch' c' H. destruct (decide (ch' = ch)) as [->|Hne].
    + rewrite list_lookup_insert_eq in H by (eapply lookup_lt_Some; eauto).
      injection H as <-. cbn. by apply (wf_slot w Hwf ch).
    + rewrite list_lookup_insert_ne in H by done. by apply (wf_slot w Hwf ch').
Qed.

Lemma release_body_spec (id : Z) (w : world) :
  wf w ->
  match clients (rl w) !! id with
  | Some ch =>
      exists c, chans w !! ch = Some c /\ chan_closed c = false
        /\ release_body id w
           = Ok (with_rl (set_clients (delete id (clients (rl w))) (rl w))
                         (with_chans (<[ch := shut c]> (chans w)) w))
  | None => release_body id w = Ok w
  end.
Proof.
  intros Hwf. unfold release_body.
  destruct (clients (rl w) !! id) as [ch|] eqn:Hid; [|done].
  destruct (wf_open w Hwf id ch Hid) as (c & Hc & Ho).
  exists c. split; [done | split; [done |]].
  by rewrite (chan_close_open _ ch c).
Qed.

Lemma wf_with_onces (w : world) (o : list bool) : wf w -> wf (with_onces o w).
Proof. intros [Ha Hb Hc Hd]. by constructor. Qed.

Lemma wf_with_contexts (w : world) (c : list bool) : wf w -> wf (with_contexts c w).
Proof. intros [Ha Hb Hc Hd]. by constructor. Qed.

Lemma wf_release_body (id : Z) (w : world) :
  wf w -> exists w', release_body id w = Ok w' /\ wf w'.
Proof.
  intros Hwf. pose proof (release_body_spec id w Hwf) as H.
  destruct (clients (rl w) !! id) as [ch|] eqn:Hid.
  - destruct H as (c & Hc & Ho & ->). eexists. split; [done |].
    by apply wf_remove_client.
  - rewrite H. by exists w.
Qed.

Lemma wf_call_release (f : releaseFn) (w : world) :
  wf w -> exists w', call_release f w = Ok w' /\ wf w'.
Proof.
  intros Hwf. destruct f as [|id once]; cbn.
  - by exists w.
  - unfold once_Do. destruct (onces w !! once) as [[]|]; try by exists w.
    destruct (wf_release_body id w Hwf) as (w' & -> & Hwf'). cbn.
    eexists. split; [done |]. by apply wf_with_onces.
Qed.

Lemma Notify_closed (w : world) : closed (rl w) = true -> Notify w = Ok w.
Proof. intros H. unfold Notify, Notify_in. by rewrite H. Qed.

(** On an open reloader, [Notify] deposits a token in the channel of every
    client that has room, and touches nothing else. *)
Lemma Notify_spec (w : world) :
  wf w -> closed (rl w) = false ->
  exists h',
    Notify w = Ok (with_chans h' w)
    /\ length h' = length (chans w)
    /\ forall l c, chans w !! l = Some c ->
         ((exists id, clients (rl w) !! id = Some l) -> h' !! l = Some (deposit c))
         /\ ((forall id, clients (rl w) !! id <> Some l) -> h' !! l = Some c).
Proof.
  intros Hwf Hcl.
  destruct (notify_loop (map_to_list (clients (rl w))) (chans w)) as (h' & Hrun & Hlen & Hh).
  - intros id ch Hin. apply elem_of_map_to_list in Hin. by apply (wf_open w Hwf id).
  - apply (wf_slot w Hwf).
  - exists h'. split; [|split; [done |]].
    + unfold Notify, Notify_in. rewrite Hcl, Hrun. done.
    + intros l c Hl. rewrite (Hh l c Hl). split.
      * intros Hreg. apply registered_iff in Hreg.
        by destruct (decide (l ∈ (map_to_list (clients (rl w))).*2)).
      * intros Hno.
        destruct (decide (l ∈ (map_to_list (clients (rl w))).*2)) as [Hin|]; [|done].
        apply registered_iff in Hin as (id & Hid). by destruct (Hno id).
Qed.

Lemma wf_with_chans_deposit (w : world) (h' : list chan) :
  wf w ->
  (forall l c, chans w !! l = Some c ->
     h' !! l = Some (deposit c) \/ h' !! l = Some c) ->
  length h' = length (chans w) ->
  wf (with_chans h' w).
Proof.
  intros Hwf Hh Hlen. constructor; cbn.
  - apply (wf_closed w Hwf).
  - intros id ch Hid. destruct (wf_open w Hwf id ch Hid) as (c & Hc & Ho).
    destruct (Hh ch c Hc) as [H|H]; eexists; (split; [exact H |]); [|done].
    by apply deposit_closed.
  - apply (wf_inj w Hwf).
  - intros ch c' Hc'.
    assert (is_Some (chans w !! ch)) as [c Hc].
    { apply lookup_lt_is_Some. rewrite <- Hlen. eapply lookup_lt_Some; eauto. }
    pose proof (wf_slot w Hwf ch c Hc) as Hs.
    destruct (Hh ch c Hc) as [H|H]; rewrite H in Hc'; injection Hc' as <-; [|done].
    by apply deposit_slot.
Qed.

Lemma wf_Notify (w : world) :
  wf w -> exists w', Notify w = Ok w' /\ wf w' /\ rl w' = rl w
                     /\ onces w' = onces w /\ contexts w' = contexts w
                     /\ length (chans w') = length (chans w).
Proof.
  intros Hwf. destruct (closed (rl w)) eqn:Hcl.
  - exists w. by rewrite Notify_closed.
  - destruct (Notify_spec w Hwf Hcl) as (h' & -> & Hlen & Hh).
    eexists. split; [done |]. split; [|done].
    apply wf_with_chans_deposit; [done | | done].
    intros l c Hl. destruct (Hh l c Hl) as [H1 H2].
    destruct (decide (l ∈ (map_to_list (clients (rl w))).*2)) as [Hin|Hnin].
    + left. apply H1. by apply registered_iff.
    + right. apply H2. intros id Hid. apply Hnin. apply registered_iff. eauto.
Qed.

Lemma Close_locked_closed (w : world) : closed (rl w) = true -> Close_locked w = Ok w.
Proof. intros H. unfold Close_locked, Close_locked_in. by rewrite H. Qed.

(** On an open reloader, the locked part of [Close] marks it closed, closes
    the channel of every client, and empties the map. *)
Lemma Close_locked_spec (w : world) :
  wf w -> closed (rl w) = false ->
  exists h',
    Close_locked w
    = Ok (with_rl (set_clients ∅ (set_closed true (rl w))) (with_chans h' w))
    /\ length h' = length (chans w)
    /\ forall l c, chans w !! l = Some c ->
         ((exists id, clients (rl w) !! id = Some l) -> h' !! l = Some (shut c))
         /\ ((forall id, clients (rl w) !! id <> Some l) -> h' !! l = Some c).
Proof.
  intros Hwf Hcl.
  destruct (close_loop (map_to_list (clients (rl w)))
              (with_rl (set_closed true (rl w)) w)) as (m' & h' & Hrun & Hlen & Hm & Hh).
  - by apply wf_NoDup.
  - intros id ch Hin. apply elem_of_map_to_list in Hin. cbn. by apply (wf_open w Hwf id).
  - exists h'. split; [|split; [done |]].
    + unfold Close_locked, Close_locked_in. rewrite Hcl, Hrun. cbn.
      assert (m' = ∅) as ->; [|done].
      apply map_empty. intros i. rewrite Hm. cbn.
      destruct (decide (i ∈ (map_to_list (clients (rl w))).*1)) as [|Hnin]; [done |].
      destruct (clients (rl w) !! i) as [ch|] eqn:Hi; [|done].
      exfalso. apply Hnin. apply key_listed_iff. eauto.
    + intros l c Hl. cbn in Hh. rewrite (Hh l c Hl). split.
      * intros Hreg. apply registered_iff in Hreg.
        by destruct (decide (l ∈ (map_to_list (clients (rl w))).*2)).
      * intros Hno.
        destruct (decide (l ∈ (map_to_list (clients (rl w))).*2)) as [Hin|]; [|done].
        apply registered_iff in Hin as (id & Hid). by destruct (Hno id).
Qed.

Lemma wf_Close_locked (w : world) :
  wf w -> exists w', Close_locked w = Ok w' /\ wf w'
                     /\ closed (rl w') = true /\ clients (rl w') = ∅
                     /\ onces w' = onces w /\ contexts w' = contexts w.
Proof.
  intros Hwf. destruct (closed (rl w)) eqn:Hcl.
  - exists w. rewrite Close_locked_closed by done.
    split; [done | split; [done | split; [done | split; [|done]]]].
    by apply (wf_closed w Hwf).
  - destruct (Close_locked_spec w Hwf Hcl) as (h' & -> & Hlen & Hh).
    eexists. split; [done |]. split; [|done].
    constructor; cbn.
    + done.
    + intros id ch H. by rewrite lookup_empty in H.
    + intros id1 id2 ch H. by rewrite lookup_empty in H.
    + intros ch c' Hc'.
      assert (is_Some (chans w !! ch)) as [c Hc].
      { apply lookup_lt_is_Some. rewrite <- Hlen. eapply lookup_lt_Some; eauto. }
      pose proof (wf_slot w Hwf ch c Hc) as Hs.
      destruct (Hh ch c Hc) as [H1 H2].
      destruct (decide (ch ∈ (map_to_list (clients (rl w))).*2)) as [Hin|Hnin].
      * rewrite H1 in Hc' by (by apply registered_iff). by injection Hc' as <-.
      * rewrite H2 in Hc'; [by injection Hc' as <- |].
        intros id Hid. apply Hnin. apply registered_iff. eauto.
Qed.

Lemma wf_cancel_watcher (w : world) : wf w -> wf (cancel_watcher w).
Proof.
  intros Hwf. unfold cancel_watcher.
  destruct (watchCancel (rl w)); [by apply wf_with_contexts | done].
Qed.

Lemma wf_Close (w : world) :
  wf w -> exists w', Close w = Ok w' /\ wf w'
                     /\ closed (rl w') = true /\ clients (rl w') = ∅.
Proof.
  intros Hwf. unfold Close.
  destruct (wf_Close_locked (cancel_watcher w)) as (w' & H & Hwf' & Hc & Hm & _).
  - by apply wf_cancel_watcher.
  - by exists w'.
Qed.

Lemma wf_Start (w : world) : wf w -> wf (Start w).1.
Proof. intros [Ha Hb Hc Hd]. by constructor. Qed.

Lemma wf_SetEnabled (b : bool) (w : world) : wf w -> wf (SetEnabled b w).
Proof. intros [Ha Hb Hc Hd]. by constructor. Qed.

Lemma chan_recv_spec (ch : nat) (h h' : list chan) (ok : bool) :
  chan_recv ch h = Some (ok, h') ->
  exists c, h !! ch = Some c
    /\ ((ok = true /\ exists n, chan_len c = S n
                       /\ h' = <[ch := mkChan (chan_cap c) n (chan_closed c)]> h)
        \/ (ok = false /\ chan_len c = O /\ chan_closed c = true /\ h' = h)).
Proof.
  unfold chan_recv. destruct (h !! ch) as [c|] eqn:Hc; [|done].
  destruct (chan_len c) as [|n] eqn:Hn.
  - destruct (chan_closed c) eqn:Hcl; [|done]. intros [= <- <-]. exists c.
    split; [done |]. right. by rewrite Hn.
  - intros [= <- <-]. exists c. split; [done |]. left. split; [done |].
    exists n. by rewrite Hn.
Qed.

Lemma wf_recv (w : world) (ch : nat) (ok : bool) (h' : list chan) :
  wf w -> chan_recv ch (chans w) = Some (ok, h') -> wf (with_chans h' w).
Proof.
  intros Hwf Hr. apply chan_recv_spec in Hr as (c & Hc & [(-> & n & Hn & ->) | (-> & _ & _ & ->)]).
  - constructor; cbn.
    + apply (wf_closed w Hwf).
    + intros id ch' Hid. destruct (wf_open w Hwf id ch' Hid) as (c' & Hc' & Ho').
      destruct (decide (ch' = ch)) as [->|Hne].
      * eexists. split; [apply list_lookup_insert_eq; eapply lookup_lt_Some; eauto |].
        cbn. congruence.
      * exists c'. by rewrite list_lookup_insert_ne.
    + apply (wf_inj w Hwf).
    + intros ch' c' H. destruct (decide (ch' = ch)) as [->|Hne].
      * rewrite list_lookup_insert_eq in H by (eapply lookup_lt_Some; eauto).
        injection H as <-. cbn. pose proof (wf_slot w Hwf ch c Hc). lia.
      * rewrite list_lookup_insert_ne in H by done. by apply (wf_slot w Hwf ch').
  - by rewrite world_eta_chans.
Qed.

(** No call panics in a well-formed state, and the state stays well formed. *)
Lemma wf_step (o : op) (s : system) :
  wf (sys_world s) -> exists s', step o s = Ok s' /\ wf (sys_world s').
Proof.
  intros Hwf. destruct o as [|k|k| | | | | |b]; cbn.
  - pose proof (wf_subscribe _ Hwf) as H.
    destruct (subscribe (sys_world s)) as [[cancel ch] w']. eexists. by split.
  - destruct (sys_subs s !! k) as [[cancel ch]|]; [|by exists s].
    destruct (wf_call_release cancel _ Hwf) as (w' & -> & Hwf'). eexists. by split.
  - destruct (sys_subs s !! k) as [[cancel [ch|]]|]; try by exists s.
    destruct (chan_recv ch (chans (sys_world s))) as [[ok h]|] eqn:Hr; [|by exists s].
    eexists. split; [done |]. by eapply wf_recv.
  - destruct (wf_Notify _ Hwf) as (w' & -> & Hwf' & _). eexists. by split.
  - eexists. split; [done |]. by apply wf_cancel_watcher.
  - destruct (wf_Close_locked _ Hwf) as (w' & -> & Hwf' & _). eexists. by split.
  - destruct (wf_Close _ Hwf) as (w' & -> & Hwf' & _). eexists. by split.
  - eexists. split; [done |]. by apply wf_Start.
  - eexists. split; [done |]. by apply wf_SetEnabled.
Qed.

Lemma wf_run (t : list op) :
  forall s, wf (sys_world s) -> exists s', run t s = Ok s' /\ wf (sys_world s').
Proof.
  induction t as [|o t IH]; intros s Hwf; cbn.
  - by exists s.
  - destruct (wf_step o s Hwf) as (s1 & -> & Hwf1). cbn. by apply IH.
Qed.

Lemma reachable_wf (s : system) : reachable s -> wf (sys_world s).
Proof.
  intros (config & t & Hrun).
  destruct (wf_run t (init config)) as (s' & Hrun' & Hwf); [apply wf_new_world |].
  congruence.
Qed.

(** ** Notify *)

Lemma Notify_client (w : world) (id : Z) (ch : nat) (c : chan) :
  wf w -> clients (rl w) !! id = Some ch -> chans w !! ch = Some c ->
  exists w', Notify w = Ok w' /\ wf w' /\ rl w' = rl w
             /\ chans w' !! ch = Some (deposit c).
Proof.
  intros Hwf Hid Hc.
  assert (Hcl : closed (rl w) = false).
  { destruct (closed (rl w)) eqn:E; [|done].
    rewrite (wf_closed w Hwf E) in Hid. by rewrite lookup_empty in Hid. }
  destruct (wf_Notify w Hwf) as (w' & Hn & Hwf' & Hrl & _).
  destruct (Notify_spec w Hwf Hcl) as (h' & Hn' & _ & Hh).
  exists w'. split; [done | split; [done | split; [done |]]].
  assert (w' = with_chans h' w) as -> by congruence. cbn.
  apply (Hh ch c Hc). eauto.
Qed.

Lemma Notify_times_client (n : nat) :
  forall (w : world) (id : Z) (ch : nat) (c : chan),
    wf w -> clients (rl w) !! id = Some ch -> chans w !! ch = Some c ->
    exists w' c', Notify_times (S n) w = Ok w'
      /\ chans w' !! ch = Some c' /\ chan_len c' = 1%nat
      /\ chan_cap c' = 1%nat /\ chan_closed c' = false.
Proof.
  induction n as [|n IH]; intros w id ch c Hwf Hid Hc.
  - destruct (Notify_client w id ch c Hwf Hid Hc) as (w' & Hn & Hwf' & Hrl & Hch).
    destruct (wf_open w Hwf id ch Hid) as (c0 & Hc0 & Ho).
    assert (c0 = c) as -> by congruence.
    destruct (wf_slot w Hwf ch c Hc) as [Hcap Hlen].
    exists w', (deposit c). cbn. rewrite Hn. cbn. split; [done | split; [done |]].
    split; [|split].
    + rewrite deposit_full by done. lia.
    + by apply deposit_slot.
    + by apply deposit_closed.
  - destruct (Notify_client w id ch c Hwf Hid Hc) as (w1 & Hn & Hwf1 & Hrl & Hch).
    destruct (IH w1 id ch (deposit c) Hwf1) as (w' & c' & Hrun & H); [by rewrite Hrl | done |].
    exists w', c'. split; [|done].
    change (Notify_times (S (S n)) w) with (w' ← Notify w; Notify_times (S n) w').
    rewrite Hn. exact Hrun.
Qed.

(** C2: [Notify] sends without blocking to every subscriber: a token is
    deposited when the slot of the channel is empty, and the send is skipped
    when a token is pending; so after [n] calls with no receive in between,
    for any [n] of at least one, exactly one token is pending. *)
Theorem notify_coalesces (s : system) (id : Z) (ch : nat) (c : chan) (n : nat) :
  reachable s ->
  clients (rl (sys_world s)) !! id = Some ch ->
  chans (sys_world s) !! ch = Some c ->
  (1 <= n)%nat ->
  (exists w1, Notify (sys_world s) = Ok w1
     /\ chans w1 !! ch
        = Some (match chan_len c with O => mkChan 1 1 false | S _ => c end))
  /\ (exists wn cn, Notify_times n (sys_world s) = Ok wn
        /\ chans wn !! ch = Some cn /\ chan_len cn = 1%nat).
Proof.
  intros Hr Hid Hc Hn. pose proof (reachable_wf s Hr) as Hwf. split.
  - destruct (Notify_client _ id ch c Hwf Hid Hc) as (w1 & Hrun & _ & _ & Hch).
    exists w1. split; [done |]. rewrite Hch. f_equal.
    destruct (wf_slot _ Hwf ch c Hc) as [Hcap Hlen].
    destruct (wf_open _ Hwf id ch Hid) as (c0 & Hc0 & Ho).
    assert (c0 = c) as -> by congruence.
    unfold deposit. rewrite Hcap. destruct (chan_len c) as [|[|k]] eqn:E; cbn.
    + done.
    + done.
    + lia.
  - destruct n as [|n]; [lia |].
    destruct (Notify_times_client n _ id ch c Hwf Hid Hc) as (wn & cn & Hrun & Hch & Hl & _).
    by exists wn, cn.
Qed.

Lemma notify_coalesces_witness :
  exists wn cn,
    Notify_times 3 world_one_client
    = Ok wn
    /\ chans wn !! 0%nat = Some cn /\ chan_len cn = 1%nat.
Proof.
  apply (notify_coalesces
           system_one_client
           0 0%nat (make_chan 1) 3).
  - exists demo_config, [OpSubscribe]. vm_compute. reflexivity.
  - vm_compute. reflexivity.
  - reflexivity.
  - lia.
Defined.

(** ** subscribe after Close *)

(** C3: in every reachable state whose closed flag is set, the map of
    subscribers is empty, and [subscribe] returns the nil channel and a
    release function that does nothing, leaving the state as it was (so it
    does the same on every later call). *)
Theorem closed_rejects_subscribers (s : system) :
  reachable s ->
  closed (rl (sys_world s)) = true ->
  clients (rl (sys_world s)) = ∅
  /\ subscribe (sys_world s) = (release_noop, None, sys_world s)
  /\ forall w, call_release release_noop w = Ok w.
Proof.
  intros Hr Hcl. pose proof (reachable_wf s Hr) as Hwf.
  split; [by apply (wf_closed _ Hwf) |]. split; [by apply subscribe_closed | done].
Qed.

Lemma closed_rejects_subscribers_witness :
  subscribe (sys_world system_closed)
  = (release_noop, None,
     sys_world system_closed).
Proof.
  apply (closed_rejects_subscribers
           system_closed).
  - exists demo_config, [OpSubscribe; OpClose].
    vm_compute. reflexivity.
  - reflexivity.
Defined.

(** ** Close *)

Lemma watchCancel_cancel_watcher (w : world) :
  watchCancel (rl (cancel_watcher w)) = watchCancel (rl w).
Proof. unfold cancel_watcher. destruct (watchCancel (rl w)) eqn:E; cbn; by rewrite ?E. Qed.

Lemma Close_locked_frame (w w' : world) :
  wf w -> Close_locked w = Ok w' ->
  contexts w' = contexts w /\ onces w' = onces w /\ watchCancel (rl w') = watchCancel (rl w).
Proof.
  intros Hwf H. destruct (closed (rl w)) eqn:Hcl.
  - rewrite Close_locked_closed in H by done. by injection H as <-.
  - destruct (Close_locked_spec w Hwf Hcl) as (h' & H' & _). rewrite H' in H.
    by injection H as <-.
Qed.

(** C4: from every reachable state [Close] returns without a panic, marks
    the reloader closed, closes the channel of every subscriber and empties
    the map; a second [Close] returns without a panic too and changes
    nothing, so no channel is closed again. *)
Theorem Close_idempotent (s : system) :
  reachable s ->
  exists w1,
    Close (sys_world s) = Ok w1
    /\ closed (rl w1) = true
    /\ clients (rl w1) = ∅
    /\ (forall id ch, clients (rl (sys_world s)) !! id = Some ch ->
          chan_is_closed (chans w1) ch)
    /\ Close w1 = Ok w1.
Proof.
  intros Hr. pose proof (reachable_wf s Hr) as Hwf.
  set (w := sys_world s) in *.
  pose proof (wf_cancel_watcher w Hwf) as Hwf0.
  destruct (wf_Close w Hwf) as (w1 & Hc & Hwf1 & Hcl & Hm).
  exists w1. split; [done | split; [done | split; [done | split]]].
  - intros id ch Hid. unfold Close in Hc.
    destruct (closed (rl (cancel_watcher w))) eqn:E.
    + assert (closed (rl w) = true) as Hclw.
      { unfold cancel_watcher in E. by destruct (watchCancel (rl w)). }
      rewrite (wf_closed w Hwf Hclw) in Hid. by rewrite lookup_empty in Hid.
    + destruct (Close_locked_spec _ Hwf0 E) as (h' & Hc' & _ & Hh).
      assert (w1 = with_rl (set_clients ∅ (set_closed true (rl (cancel_watcher w))))
                           (with_chans h' (cancel_watcher w))) as -> by congruence.
      assert (Hid0 : clients (rl (cancel_watcher w)) !! id = Some ch).
      { unfold cancel_watcher. by destruct (watchCancel (rl w)). }
      destruct (wf_open _ Hwf0 id ch Hid0) as (c & Hch & _).
      exists (shut c). split; [|done]. cbn. apply (Hh ch c Hch). eauto.
  - unfold Close in *.
    destruct (Close_locked_frame _ _ Hwf0 Hc) as (Hctx & _ & Hwc).
    assert (cancel_watcher w1 = w1) as ->.
    { unfold cancel_watcher at 1. rewrite Hwc, watchCancel_cancel_watcher.
      destruct (watchCancel (rl w)) as [ctx|] eqn:E; [|done].
      assert (Hc1 : contexts w1 = <[ctx := true]> (contexts w)).
      { rewrite Hctx. unfold cancel_watcher. by rewrite E. }
      destruct w1 as [r1 h1 o1 c1]. cbn in Hc1. subst c1.
      unfold with_contexts. cbn. by rewrite list_insert_insert_eq. }
    by apply Close_locked_closed.
Qed.

Lemma Close_idempotent_witness :
  exists w1,
    Close world_one_client
    = Ok w1
    /\ closed (rl w1) = true
    /\ clients (rl w1) = ∅
    /\ (forall id ch,
          ({[0 := 0%nat]} : gmap Z nat) !! id = Some ch -> chan_is_closed (chans w1) ch)
    /\ Close w1 = Ok w1.
Proof.
  apply (Close_idempotent
           system_one_client).
  exists demo_config, [OpSubscribe]. vm_compute. reflexivity.
Defined.

(** ** Late joiners *)

(** C8: [Notify] deposits tokens only in the channels registered when it
    runs: a channel of no client is left as it was, and a subscription made
    afterwards gets a channel that did not exist then and is empty. *)
Theorem late_joiner_sees_nothing (s : system) :
  reachable s ->
  exists w1,
    Notify (sys_world s) = Ok w1
    /\ (forall l c, chans (sys_world s) !! l = Some c ->
          (forall id, clients (rl (sys_world s)) !! id <> Some l) ->
          chans w1 !! l = Some c)
    /\ forall cancel ch w2,
         subscribe w1 = (cancel, Some ch, w2) ->
         chans (sys_world s) !! ch = None
         /\ chans w2 !! ch = Some (mkChan 1 0 false).
Proof.
  intros Hr. pose proof (reachable_wf s Hr) as Hwf.
  set (w := sys_world s) in *.
  destruct (wf_Notify w Hwf) as (w1 & Hn & Hwf1 & Hrl & _ & _ & Hlen).
  exists w1. split; [done | split].
  - intros l c Hl Hno. destruct (closed (rl w)) eqn:Hcl.
    + rewrite Notify_closed in Hn by done. by injection Hn as <-.
    + destruct (Notify_spec w Hwf Hcl) as (h' & Hn' & _ & Hh).
      assert (w1 = with_chans h' w) as -> by congruence. cbn.
      by apply (Hh l c Hl).
  - intros cancel ch w2 Hsub. destruct (closed (rl w1)) eqn:Hcl.
    + by rewrite subscribe_closed in Hsub.
    + rewrite subscribe_open in Hsub by done. injection Hsub as _ <- <-.
      split.
      * apply lookup_ge_None. lia.
      * cbn. by rewrite list_lookup_middle.
Qed.

Lemma late_joiner_sees_nothing_witness :
  exists w1,
    Notify world_one_client
    = Ok w1
    /\ (forall l c, [make_chan 1] !! l = Some c ->
          (forall id, ({[0 := 0%nat]} : gmap Z nat) !! id <> Some l) ->
          chans w1 !! l = Some c)
    /\ forall cancel ch w2,
         subscribe w1 = (cancel, Some ch, w2) ->
         [make_chan 1] !! ch = None
         /\ chans w2 !! ch = Some (mkChan 1 0 false).
Proof.
  apply (late_joiner_sees_nothing
           system_one_client).
  exists demo_config, [OpSubscribe]. vm_compute. reflexivity.
Defined.

(** ** Start, Close and the watcher's cancel function *)

(** C10: [Start] overwrites the stored cancel function with that of the
    new watcher, whatever was stored; [Close] cancels the stored one when
    there is one, and nothing when there is none (and does not panic); after
    two [Start]s, [Close] cancels the second watcher and leaves the first
    running. *)
Theorem watch_cancel_handle (s : system) :
  reachable s ->
  watchCancel (rl (Start (sys_world s)).1) = Some (g_ctx (Start (sys_world s)).2)
  /\ contexts (Start (sys_world s)).1 !! g_ctx (Start (sys_world s)).2 = Some false
  /\ (watchCancel (rl (sys_world s)) = None ->
        exists w', Close (sys_world s) = Ok w' /\ contexts w' = contexts (sys_world s))
  /\ (forall ctx, watchCancel (rl (sys_world s)) = Some ctx ->
        exists w', Close (sys_world s) = Ok w'
                   /\ contexts w' = <[ctx := true]> (contexts (sys_world s)))
  /\ exists w3,
       Close (Start (Start (sys_world s)).1).1 = Ok w3
       /\ contexts w3 !! g_ctx (Start (sys_world s)).2 = Some false
       /\ contexts w3 !! g_ctx (Start (Start (sys_world s)).1).2 = Some true.
Proof.
  intros Hr. pose proof (reachable_wf s Hr) as Hwf. set (w := sys_world s) in *.
  assert (HClose : forall w0, wf w0 ->
            exists w', Close w0 = Ok w' /\ contexts w' = contexts (cancel_watcher w0)).
  { intros w0 Hwf0. pose proof (wf_cancel_watcher w0 Hwf0) as Hwf1.
    destruct (wf_Close_locked _ Hwf1) as (w' & Hc & _).
    exists w'. split; [done |]. by apply (Close_locked_frame _ _ Hwf1 Hc). }
  split; [done |]. split; [cbn; by rewrite list_lookup_middle |].
  split; [|split].
  - intros Hnone. destruct (HClose w Hwf) as (w' & Hc & Hctx).
    exists w'. split; [done |]. rewrite Hctx. unfold cancel_watcher. by rewrite Hnone.
  - intros ctx Hsome. destruct (HClose w Hwf) as (w' & Hc & Hctx).
    exists w'. split; [done |]. rewrite Hctx. unfold cancel_watcher. by rewrite Hsome.
  - destruct (HClose (Start (Start w).1).1) as (w3 & Hc & Hctx).
    { by apply wf_Start, wf_Start. }
    exists w3. split; [done |]. rewrite Hctx. cbn.
    rewrite length_app. cbn.
    split.
    + rewrite list_lookup_insert_ne by lia.
      rewrite lookup_app_l by (rewrite length_app; cbn; lia).
      by rewrite list_lookup_middle.
    + rewrite list_lookup_insert_eq by (rewrite !length_app; cbn; lia). done.
Qed.

Lemma watch_cancel_handle_witness :
  exists w', Close world_one_client = Ok w' /\ contexts w' = contexts world_one_client.
Proof.
  apply (watch_cancel_handle system_one_client).
  - exists demo_config, [OpSubscribe]. vm_compute. reflexivity.
  - reflexivity.
Defined.

(** ** The watcher *)

Lemma be32_length (x : Z) : length (SHA1.be32 x) = 4%nat.
Proof. reflexivity. Qed.

Lemma sum_length (msg : list Z) : length (SHA1.sum msg) = 20%nat.
Proof.
  unfold SHA1.sum.
  destruct (SHA1.blocks (length (SHA1.pad msg)) SHA1.init (SHA1.pad msg))
    as [[[[h0 h1] h2] h3] h4].
  by rewrite !length_app, !be32_length.
Qed.

Lemma EncodeToString_length (bs : list Z) :
  String.length (Hex.EncodeToString bs) = (2 * length bs)%nat.
Proof.
  induction bs as [|b bs IH]; [done |].
  change (Hex.EncodeToString (b :: bs))
    with (String (Hex.digit (b / 16)) (String (Hex.digit (b mod 16)) (Hex.EncodeToString bs))).
  cbn [String.length length]. rewrite IH. lia.
Qed.

(** A fingerprint is forty hexadecimal digits, hence not the empty string. *)
Lemma directoryFingerprint_length (dir : FS) (fp : string) :
  directoryFingerprint dir = (fp, None) -> String.length fp = 40%nat.
Proof.
  intros H. apply directoryFingerprint_tracked in H. subst fp.
  by rewrite EncodeToString_length, sum_length.
Qed.








(** ** The streaming handler *)

(** A step of the loop does not panic in a well-formed state; it writes
    one reload line when it receives a signal, and nothing otherwise. *)
Lemma Handler_step_spec (ev : hevent) (c : conn) (wd : world) :
  wf wd ->
  exists c' wd',
    Handler_step ev c wd = Ok (c', wd')
    /\ wf wd'
    /\ written (conn_writer c')
       = written (conn_writer c)
         ++ (if receives_signal ev c wd then [reload_line] else []).
Proof.
  intros Hwf. destruct c as [w cancel ch | w]; cbn.
  2: { exists (Returned w), wd. by rewrite app_nil_r. }
  destruct ev as [|write_ok].
  - destruct (wf_call_release cancel wd Hwf) as (wd' & -> & Hwf').
    exists (Returned w), wd'. by rewrite app_nil_r.
  - destruct (chan_recv ch (chans wd)) as [[[] h]|] eqn:Hr.
    + pose proof (wf_recv wd ch true h Hwf Hr) as Hwf1.
      destruct write_ok.
      * eexists _, _. split; [done |]. by split.
      * destruct (wf_call_release cancel _ Hwf1) as (wd' & -> & Hwf').
        eexists _, _. split; [done |]. by split.
    + pose proof (wf_recv wd ch false h Hwf Hr) as Hwf1.
      destruct (wf_call_release cancel _ Hwf1) as (wd' & -> & Hwf').
      exists (Returned w), wd'. by rewrite app_nil_r.
    + exists (Streaming w cancel ch), wd. by rewrite app_nil_r.
Qed.

Lemma Handler_run_spec (sch : list sched) :
  forall (c : conn) (s : system),
    wf (sys_world s) ->
    exists c' s' n,
      Handler_run sch c s = Ok (c', s', n)
      /\ written (conn_writer c') = written (conn_writer c) ++ repeat reload_line n.
Proof.
  induction sch as [|[o|ev] sch IH]; intros c s Hwf; cbn [Handler_run].
  - exists c, s, O. by rewrite app_nil_r.
  - destruct (wf_step o s Hwf) as (s1 & -> & Hwf1). cbn. by apply IH.
  - destruct (Handler_step_spec ev c (sys_world s) Hwf) as (c1 & wd1 & -> & Hwf1 & Hw1).
    cbn. destruct (IH c1 (mkSystem wd1 (sys_subs s)) Hwf1) as (c' & s' & n & -> & Hw).
    cbn. eexists _, _, _. split; [done |].
    rewrite Hw, Hw1, <- app_assoc. f_equal.
    by destruct (receives_signal ev c (sys_world s)).
Qed.




(** The schedule run: two signals are received (the second and third
    notifications coalesce), two reload lines are written, and the deferred
    release closes the channel of the connection. *)
Example handler_demo :
  match Handler (mkRequest "GET") fresh_writer true world_one_client with
  | Ok (c, wd) =>
      match Handler_run demo_schedule c (mkSystem wd (sys_subs system_one_client)) with
      | Ok (c', s', n) =>
          n = 2%nat
          /\ c' = Returned (conn_writer c')
          /\ written (conn_writer c') = [connected_line; reload_line; reload_line]
          /\ status (conn_writer c') = Some 200
          /\ chans (sys_world s') !! 1%nat = Some (mkChan 1 0 true)
          /\ dom (clients (rl (sys_world s'))) = {[0]}
      | Panic => False
      end
  | Panic => False
  end.
Proof. vm_compute. repeat split. Qed.

(** ** The life of a subscription *)

Lemma system_eta (s : system) : mkSystem (sys_world s) (sys_subs s) = s.
Proof. by destruct s. Qed.

Lemma eff_chans_refl (s : system) : eff_chans s s.
Proof.
  exists (chans (sys_world s)). split; [|split; [done |]].
  - by rewrite world_eta_chans, system_eta.
  - intros l c Hl. by exists c.
Qed.

Lemma wrap_small (x : Z) :
  Int64.min_int <= x <= Int64.max_int -> Int64.wrap x = x.
Proof.
  unfold Int64.wrap, Int64.modulus, Int64.min_int, Int64.max_int. intros H.
  rewrite Z.mod_small; lia.
Qed.

(** Every call returns in a well-formed state, with the effect of its kind. *)
Lemma step_effect (o : op) (s : system) :
  wf (sys_world s) ->
  exists s', step o s = Ok s' /\ wf (sys_world s') /\ op_effect o s s'.
Proof.
  intros Hwf. destruct (wf_step o s Hwf) as (s' & Hstep & Hwf').
  exists s'. split; [done | split; [done |]].
  destruct s as [w subs]. cbn [sys_world sys_subs] in *.
  destruct o as [|k|k| | | | | |b]; cbn in Hstep |- *;
    unfold eff_sub, eff_rel, eff_close; cbn [sys_world sys_subs] in *.
  - destruct (closed (rl w)) eqn:Hcl.
    + left. rewrite subscribe_closed in Hstep by done. by injection Hstep as <-.
    + right. rewrite subscribe_open in Hstep by done. by injection Hstep as <-.
  - destruct (subs !! k) as [[[|id once] och]|]; cbn in Hstep.
    + injection Hstep as <-. done.
    + unfold once_Do in Hstep.
      destruct (onces w !! once) as [[]|].
      * injection Hstep as <-. done.
      * pose proof (release_body_spec id w Hwf) as Hb.
        destruct (clients (rl w) !! id) as [ch|].
        -- destruct Hb as (c & Hc & Ho & Hb). rewrite Hb in Hstep. cbn in Hstep.
           injection Hstep as <-. by exists c.
        -- rewrite Hb in Hstep. cbn in Hstep. by injection Hstep as <-.
      * injection Hstep as <-. done.
    + by injection Hstep as <-.
  - destruct (subs !! k) as [[cancel [ch|]]|];
      try (injection Hstep as <-; apply eff_chans_refl).
    
    destruct (chan_recv ch (chans w)) as [[ok h]|] eqn:Hr;
      [|injection Hstep as <-; apply eff_chans_refl].
    injection Hstep as <-. exists h. split; [done |].
    apply chan_recv_spec in Hr as (c & Hc & [(-> & n & Hn & ->) | (-> & _ & _ & ->)]).
    + split; [by rewrite length_insert |]. intros l c' Hl. cbn in Hl.
      destruct (decide (l = ch)) as [->|Hne].
      * eexists. split; [apply list_lookup_insert_eq; eapply lookup_lt_Some; eauto |].
        cbn. congruence.
      * exists c'. by rewrite list_lookup_insert_ne.
    + split; [done |]. intros l c' Hl. cbn in Hl. by exists c'.
  - destruct (closed (rl w)) eqn:Hcl.
    + rewrite Notify_closed in Hstep by done. injection Hstep as <-.
      apply eff_chans_refl.
    + destruct (Notify_spec w Hwf Hcl) as (h' & Hn & Hlen & Hh).
      rewrite Hn in Hstep. injection Hstep as <-.
      exists h'. split; [done | split; [done |]]. intros l c Hl. cbn in Hl.
      destruct (Hh l c Hl) as [H1 H2].
      destruct (decide (l ∈ (map_to_list (clients (rl w))).*2)) as [Hin|Hnin].
      * apply registered_iff in Hin. exists (deposit c). split; [by apply H1 |].
        destruct Hin as (id & Hid). destruct (wf_open w Hwf id l Hid) as (c0 & Hc0 & Ho).
        assert (c0 = c) as -> by congruence. rewrite Ho. by apply deposit_closed.
      * exists c. split; [|done]. apply H2. intros id Hid. apply Hnin.
        apply registered_iff. eauto.
  - injection Hstep as <-. unfold cancel_watcher.
    destruct (watchCancel (rl w)) as [ctx|].
    + by exists (rl w), (<[ctx := true]> (contexts w)).
    + exists (rl w), (contexts w). by destruct w.
  - destruct (closed (rl w)) eqn:Hcl.
    + left. rewrite Close_locked_closed in Hstep by done. injection Hstep as <-.
      split; [done |]. done.
    + right. split; [done |].
      destruct (Close_locked_spec w Hwf Hcl) as (h' & Hc & Hlen & Hh).
      rewrite Hc in Hstep. injection Hstep as <-. by exists h'.
  - unfold Close in Hstep.
    exists (mkSystem (cancel_watcher w) (subs)). split.
    + unfold cancel_watcher. destruct (watchCancel (rl w)) as [ctx|].
      * by exists (rl w), (<[ctx := true]> (contexts w)).
      * exists (rl w), (contexts w). by destruct w.
    + pose proof (wf_cancel_watcher w Hwf) as Hwf0.
      unfold eff_close. cbn [sys_world sys_subs].
      destruct (closed (rl (cancel_watcher w))) eqn:Hcl.
      * left. rewrite Close_locked_closed in Hstep by done. by injection Hstep as <-.
      * right. split; [done |].
        destruct (Close_locked_spec _ Hwf0 Hcl) as (h' & Hc & Hlen & Hh).
        rewrite Hc in Hstep. injection Hstep as <-. by exists h'.
  - injection Hstep as <-.
    by exists (set_watchCancel (Some (length (contexts w))) (rl w)), (contexts w ++ [false]).
  - injection Hstep as <-. by exists (set_enabled b (rl w)), (contexts w).
Qed.

Section subscription.
Variables (k : nat) (id : Z) (once ch : nat).

Lemma live_chan_open (s : system) :
  wf (sys_world s) -> live k id once ch s -> chan_open (chans (sys_world s)) ch.
Proof. intros Hwf Hl. apply (wf_open _ Hwf id). apply (live_client _ _ _ _ _ Hl). Qed.

Lemma live_eff_chans (s s' : system) :
  live k id once ch s -> eff_chans s s' -> live k id once ch s'.
Proof.
  intros [H1 H2 H3 H4 H5 H6] (h' & -> & _). by constructor.
Qed.

Lemma live_eff_misc (s s' : system) :
  live k id once ch s -> eff_misc s s' -> live k id once ch s'.
Proof.
  intros [H1 H2 H3 H4 H5 H6] (r' & ctxs' & -> & Hc & Hn & Hm).
  constructor; cbn; try done; congruence.
Qed.

Lemma live_eff_sub (s s' : system) :
  live k id once ch s ->
  nextID (rl (sys_world s)) < Int64.max_int ->
  eff_sub s s' -> live k id once ch s'.
Proof.
  intros [H1 H2 H3 H4 [H5 H5'] H6] Hmax [[Hcl _] | [_ ->]]; [congruence |].
  constructor; cbn.
  - by apply lookup_app_l_Some.
  - by apply lookup_app_l_Some.
  - done.
  - rewrite lookup_insert_ne; [done | lia].
  - rewrite wrap_small; [lia |]. unfold Int64.min_int, Int64.max_int in *. lia.
  - intros k' id' once' ch' Hk Hsub.
    apply lookup_app_Some in Hsub as [Hsub | [_ Hsub]]; [by eapply H6 |].
    destruct (k' - length (sys_subs s))%nat; cbn in Hsub; [|done].
    injection Hsub as <- <- _. apply lookup_lt_Some in H2. split; lia.
Qed.

Lemma live_eff_rel_other (k' : nat) (s s' : system) :
  k' <> k -> live k id once ch s -> eff_rel k' s s' -> live k id once ch s'.
Proof.
  intros Hk [H1 H2 H3 H4 H5 H6] Heff. unfold eff_rel in Heff.
  destruct (sys_subs s !! k') as [[[|id' once'] och]|] eqn:Hsub; try by subst s'.
  destruct (H6 k' id' once' och Hk Hsub) as [Hid Honce].
  destruct (onces (sys_world s) !! once') as [[]|]; try by subst s'.
  destruct (clients (rl (sys_world s)) !! id') as [ch'|].
  - destruct Heff as (c & Hc & Ho & ->). constructor; cbn; try done.
    + by rewrite list_lookup_insert_ne.
    + by rewrite lookup_delete_ne.
  - subst s'. constructor; cbn; try done. by rewrite list_lookup_insert_ne.
Qed.

Lemma live_eff_rel_self (s s' : system) :
  live k id once ch s -> eff_rel k s s' -> over k id once ch s'.
Proof.
  intros [H1 H2 H3 H4 H5 H6] Heff. unfold eff_rel in Heff.
  rewrite H1, H2, H4 in Heff. destruct Heff as (c & Hc & Ho & ->).
  constructor; cbn.
  - done.
  - exists (shut c). split; [|done].
    apply list_lookup_insert_eq. eapply lookup_lt_Some; eauto.
  - left. apply list_lookup_insert_eq. eapply lookup_lt_Some; eauto.
Qed.

Lemma live_eff_close (s s' : system) :
  wf (sys_world s) ->
  live k id once ch s -> eff_close s s' -> over k id once ch s'.
Proof.
  intros Hwf Hl [[Hcl _] | [_ (h' & -> & _ & Hh)]].
  - rewrite (live_open _ _ _ _ _ Hl) in Hcl. done.
  - destruct (live_chan_open s Hwf Hl) as (c & Hc & Ho).
    constructor; cbn.
    + apply (live_sub _ _ _ _ _ Hl).
    + exists (shut c). split; [|done]. apply (Hh ch c Hc).
      exists id. apply (live_client _ _ _ _ _ Hl).
    + by right.
Qed.

Lemma over_eff_chans (s s' : system) :
  over k id once ch s -> eff_chans s s' -> over k id once ch s'.
Proof.
  intros [H1 (c & Hc & Hcl) H3] (h' & -> & _ & Hh). constructor; cbn; try done.
  destruct (Hh ch c Hc) as (c' & Hc' & Heq). exists c'. split; [done | congruence].
Qed.

Lemma over_eff_misc (s s' : system) :
  over k id once ch s -> eff_misc s s' -> over k id once ch s'.
Proof.
  intros [H1 H2 H3] (r' & ctxs' & -> & Hc & Hn & Hm).
  constructor; cbn; try done. destruct H3 as [H3|H3]; [by left | right; congruence].
Qed.

Lemma over_eff_sub (s s' : system) :
  over k id once ch s -> eff_sub s s' -> over k id once ch s'.
Proof.
  intros [H1 (c & Hc & Hcl) H3] [[_ ->] | [Hopen ->]]; constructor; cbn.
  - by apply lookup_app_l_Some.
  - by exists c.
  - done.
  - by apply lookup_app_l_Some.
  - exists c. split; [by apply lookup_app_l_Some | done].
  - destruct H3 as [H3|H3]; [left; by apply lookup_app_l_Some | congruence].
Qed.

Lemma over_eff_rel (k' : nat) (s s' : system) :
  over k id once ch s -> eff_rel k' s s' -> over k id once ch s'.
Proof.
  intros [H1 (c & Hc & Hcl) H3] Heff. unfold eff_rel in Heff.
  assert (Hov : over k id once ch s) by (constructor; eauto; by exists c).
  destruct (sys_subs s !! k') as [[[|id' once'] och]|]; try by subst s'.
  destruct (onces (sys_world s) !! once') as [[]|] eqn:Ho'; try by subst s'.
  assert (Hdone : forall o, onces (sys_world s) !! once = Some true \/ o ->
            <[once' := true]> (onces (sys_world s)) !! once = Some true \/ o).
  { intros o [H|H]; [left | by right]. destruct (decide (once = once')) as [->|Hne].
    - congruence.
    - by rewrite list_lookup_insert_ne. }
  destruct (clients (rl (sys_world s)) !! id') as [ch'|].
  - destruct Heff as (c' & Hc' & Hopen & ->). constructor; cbn.
    + done.
    + exists c. split; [|done]. rewrite list_lookup_insert_ne; [done |].
      intros ->. congruence.
    + by apply Hdone.
  - subst s'. constructor; cbn; [done | by exists c | by apply Hdone].
Qed.

Lemma over_eff_close (s s' : system) :
  over k id once ch s -> eff_close s s' -> over k id once ch s'.
Proof.
  intros [H1 (c & Hc & Hcl) H3] [[_ ->] | [_ (h' & -> & _ & Hh)]].
  - constructor; [done | by exists c | done].
  - constructor; cbn; [done | | by right].
    destruct (Hh ch c Hc) as [Hreg Hnot].
    destruct (decide (ch ∈ (map_to_list (clients (rl (sys_world s)))).*2)) as [Hin|Hnin].
    + exists (shut c). split; [|done]. apply Hreg. by apply registered_iff.
    + exists c. split; [|done]. apply Hnot. intros i Hi. apply Hnin.
      apply registered_iff. eauto.
Qed.

(** A call that releases the subscription or closes the reloader ends a
    live subscription; any other call leaves it live. *)
Lemma live_effect (o : op) (s s' : system) :
  wf (sys_world s) ->
  live k id once ch s ->
  nextID (rl (sys_world s)) < Int64.max_int ->
  op_effect o s s' ->
  if closes k o then over k id once ch s' else live k id once ch s'.
Proof.
  intros Hwf Hl Hmax Heff. destruct o as [|k'|k'| | | | | |b]; cbn in Heff |- *.
  - by apply (live_eff_sub s).
  - destruct (Nat.eqb_spec k' k) as [->|Hne].
    + by apply (live_eff_rel_self s).
    + by apply (live_eff_rel_other k' s).
  - by apply (live_eff_chans s).
  - by apply (live_eff_chans s).
  - by apply (live_eff_misc s).
  - by apply (live_eff_close s).
  - destruct Heff as (s1 & Hm & Hc). apply (live_eff_close s1); [| |done].
    + destruct Hm as (r' & ctxs' & -> & Hc1 & Hn1 & Hm1). cbn.
      destruct Hwf as [Ha Hb Hcc Hd]. constructor; cbn; rewrite ?Hm1, ?Hc1; done.
    + by apply (live_eff_misc s).
  - by apply (live_eff_misc s).
  - by apply (live_eff_misc s).
Qed.

Lemma over_effect (o : op) (s s' : system) :
  over k id once ch s -> op_effect o s s' -> over k id once ch s'.
Proof.
  intros Hov Heff. destruct o as [|k'|k'| | | | | |b]; cbn in Heff.
  - by apply (over_eff_sub s).
  - by apply (over_eff_rel k' s).
  - by apply (over_eff_chans s).
  - by apply (over_eff_chans s).
  - by apply (over_eff_misc s).
  - by apply (over_eff_close s).
  - destruct Heff as (s1 & Hm & Hc). apply (over_eff_close s1); [|done].
    by apply (over_eff_misc s).
  - by apply (over_eff_misc s).
  - by apply (over_eff_misc s).
Qed.

End subscription.

Lemma nextID_effect (o : op) (s s' : system) :
  0 <= nextID (rl (sys_world s)) < Int64.max_int ->
  op_effect o s s' ->
  nextID (rl (sys_world s)) <= nextID (rl (sys_world s'))
                            <= nextID (rl (sys_world s)) + 1.
Proof.
  intros Hn Heff.
  assert (Hchans : forall a b, eff_chans a b ->
            nextID (rl (sys_world b)) = nextID (rl (sys_world a))).
  { by intros a b (h' & -> & _). }
  assert (Hmisc : forall a b, eff_misc a b ->
            nextID (rl (sys_world b)) = nextID (rl (sys_world a))).
  { intros a b (r' & ctxs' & -> & _ & H & _). exact H. }
  assert (Hclose : forall a b, eff_close a b ->
            nextID (rl (sys_world b)) = nextID (rl (sys_world a))).
  { by intros a b [[_ ->] | [_ (h' & -> & _)]]. }
  destruct o as [|k'|k'| | | | | |b]; cbn in Heff.
  - destruct Heff as [[_ ->] | [_ ->]]; cbn; [lia |].
    rewrite wrap_small; [lia |]. unfold Int64.min_int, Int64.max_int in *. lia.
  - unfold eff_rel in Heff.
    destruct (sys_subs s !! k') as [[[|id' once'] och]|]; try (subst s'; lia).
    destruct (onces (sys_world s) !! once') as [[]|]; try (subst s'; lia).
    destruct (clients (rl (sys_world s)) !! id') as [ch'|].
    + destruct Heff as (c & _ & _ & ->). cbn. lia.
    + subst s'. cbn. lia.
  - rewrite (Hchans _ _ Heff). lia.
  - rewrite (Hchans _ _ Heff). lia.
  - rewrite (Hmisc _ _ Heff). lia.
  - rewrite (Hclose _ _ Heff). lia.
  - destruct Heff as (s1 & Hm & Hc). rewrite (Hclose _ _ Hc), (Hmisc _ _ Hm). lia.
  - rewrite (Hmisc _ _ Heff). lia.
  - rewrite (Hmisc _ _ Heff). lia.
Qed.

Lemma ids_fresh_effect (o : op) (s s' : system) :
  ids_fresh s ->
  nextID (rl (sys_world s)) < Int64.max_int ->
  op_effect o s s' ->
  ids_fresh s'.
Proof.
  intros [Hn Hs] Hmax Heff.
  pose proof (nextID_effect o s s' (conj Hn Hmax) Heff) as Hnext.
  constructor; [lia |].
  assert (Hkeep : forall a b,
            sys_subs b = sys_subs a ->
            length (onces (sys_world b)) = length (onces (sys_world a)) ->
            nextID (rl (sys_world a)) <= nextID (rl (sys_world b)) ->
            (forall k id once ch, sys_subs a !! k = Some (release_cancel id once, ch) ->
               id < nextID (rl (sys_world a)) /\ (once < length (onces (sys_world a)))%nat) ->
            forall k id once ch, sys_subs b !! k = Some (release_cancel id once, ch) ->
              id < nextID (rl (sys_world b)) /\ (once < length (onces (sys_world b)))%nat).
  { intros a b Hsubs Hlen Hle Ha k id once ch Hk. rewrite Hsubs in Hk.
    destruct (Ha k id once ch Hk). lia. }
  assert (Hchans : forall a b, eff_chans a b ->
            sys_subs b = sys_subs a
            /\ length (onces (sys_world b)) = length (onces (sys_world a))).
  { by intros a b (h' & -> & _). }
  assert (Hmisc : forall a b, eff_misc a b ->
            sys_subs b = sys_subs a
            /\ length (onces (sys_world b)) = length (onces (sys_world a))).
  { by intros a b (r' & ctxs' & -> & _). }
  assert (Hclose : forall a b, eff_close a b ->
            sys_subs b = sys_subs a
            /\ length (onces (sys_world b)) = length (onces (sys_world a))).
  { by intros a b [[_ ->] | [_ (h' & -> & _)]]. }
  destruct o as [|k'|k'| | | | | |b]; cbn in Heff.
  - destruct Heff as [[_ ->] | [_ ->]]; cbn in *.
    + intros k id once ch Hk. apply lookup_app_Some in Hk as [Hk | [_ Hk]]; [by eapply Hs |].
      destruct (k - length (sys_subs s))%nat; cbn in Hk; done.
    + intros k id once ch Hk. rewrite length_app. cbn.
      apply lookup_app_Some in Hk as [Hk | [_ Hk]].
      * destruct (Hs k id once ch Hk). lia.
      * destruct (k - length (sys_subs s))%nat; cbn in Hk; [|done].
        injection Hk as <- <- _.
        rewrite wrap_small by (unfold Int64.min_int, Int64.max_int in *; lia). lia.
  - apply (Hkeep s s'); try done; try lia.
    + unfold eff_rel in Heff.
      destruct (sys_subs s !! k') as [[[|id' once'] och]|]; try by subst s'.
      destruct (onces (sys_world s) !! once') as [[]|]; try by subst s'.
      destruct (clients (rl (sys_world s)) !! id') as [ch'|].
      * by destruct Heff as (c & _ & _ & ->).
      * by subst s'.
    + unfold eff_rel in Heff.
      destruct (sys_subs s !! k') as [[[|id' once'] och]|]; try by subst s'.
      destruct (onces (sys_world s) !! once') as [[]|]; try by subst s'.
      destruct (clients (rl (sys_world s)) !! id') as [ch'|].
      * destruct Heff as (c & _ & _ & ->). cbn. by rewrite length_insert.
      * subst s'. cbn. by rewrite length_insert.
  - destruct (Hchans _ _ Heff). apply (Hkeep s s'); try done; lia.
  - destruct (Hchans _ _ Heff). apply (Hkeep s s'); try done; lia.
  - destruct (Hmisc _ _ Heff). apply (Hkeep s s'); try done; lia.
  - destruct (Hclose _ _ Heff). apply (Hkeep s s'); try done; lia.
  - destruct Heff as (s1 & Hm & Hc).
    destruct (Hmisc _ _ Hm) as [E1 E2]. destruct (Hclose _ _ Hc) as [E3 E4].
    apply (Hkeep s s'); try done; try lia; congruence.
  - destruct (Hmisc _ _ Heff). apply (Hkeep s s'); try done; lia.
  - destruct (Hmisc _ _ Heff). apply (Hkeep s s'); try done; lia.
Qed.

(** While identifiers cannot wrap, an execution keeps them fresh. *)
Lemma ids_fresh_run (t : list op) :
  forall s,
    wf (sys_world s) -> ids_fresh s ->
    nextID (rl (sys_world s)) + Z.of_nat (length t) <= Int64.max_int ->
    exists s', run t s = Ok s' /\ wf (sys_world s') /\ ids_fresh s'
               /\ nextID (rl (sys_world s'))
                  <= nextID (rl (sys_world s)) + Z.of_nat (length t).
Proof.
  induction t as [|o t IH]; intros s Hwf Hf Hb; cbn [run length].
  - exists s. split; [done | split; [done | split; [done |]]]. cbn. lia.
  - destruct (step_effect o s Hwf) as (s1 & -> & Hwf1 & Heff). cbn.
    pose proof (if_next s Hf) as Hn.
    assert (Hmax : nextID (rl (sys_world s)) < Int64.max_int) by (cbn [length] in Hb; lia).
    pose proof (nextID_effect o s s1 (conj Hn Hmax) Heff) as Hnext.
    destruct (IH s1 Hwf1) as (s' & Hrun & Hwf' & Hf' & Hle).
    + by apply (ids_fresh_effect o s).
    + cbn [length] in Hb. lia.
    + exists s'. split; [done | split; [done | split; [done |]]].
      cbn [length] in *. lia.
Qed.

Section subscription_runs.
Variables (k : nat) (id : Z) (once ch : nat).

Lemma live_not_closed (s : system) :
  wf (sys_world s) -> live k id once ch s ->
  is_closed_b (chans (sys_world s)) ch = false.
Proof.
  intros Hwf Hl. destruct (live_chan_open k id once ch s Hwf Hl) as (c & Hc & Ho).
  unfold is_closed_b. by rewrite Hc.
Qed.

Lemma over_is_closed (s : system) :
  over k id once ch s -> is_closed_b (chans (sys_world s)) ch = true.
Proof.
  intros Hov. destruct (over_closed _ _ _ _ _ Hov) as (c & Hc & Hcl).
  unfold is_closed_b. by rewrite Hc.
Qed.

(** Once the subscription is over, no call closes its channel again. *)
Lemma over_run (t : list op) :
  forall s,
    wf (sys_world s) -> over k id once ch s ->
    exists s', run t s = Ok s' /\ wf (sys_world s') /\ over k id once ch s'
               /\ closings ch t s = O.
Proof.
  induction t as [|o t IH]; intros s Hwf Hov; cbn [run closings].
  - by exists s.
  - destruct (step_effect o s Hwf) as (s1 & -> & Hwf1 & Heff). cbn.
    pose proof (over_effect k id once ch o s s1 Hov Heff) as Hov1.
    destruct (IH s1 Hwf1 Hov1) as (s' & Hrun & Hwf' & Hov' & Hcount).
    exists s'. split; [done | split; [done | split; [done |]]].
    by rewrite (over_is_closed s Hov), Hcount.
Qed.

(** A live subscription stays live until the first call that releases it
    or closes the reloader; that call closes its channel, and no other. *)
Lemma live_run (t : list op) :
  forall s,
    wf (sys_world s) -> live k id once ch s ->
    nextID (rl (sys_world s)) + Z.of_nat (length t) <= Int64.max_int ->
    exists s',
      run t s = Ok s' /\ wf (sys_world s')
      /\ (if existsb (closes k) t then over k id once ch s' else live k id once ch s')
      /\ closings ch t s = (if existsb (closes k) t then 1 else 0)%nat.
Proof.
  induction t as [|o t IH]; intros s Hwf Hl Hb; cbn [run closings existsb].
  - by exists s.
  - destruct (step_effect o s Hwf) as (s1 & -> & Hwf1 & Heff). cbn.
    destruct (live_next _ _ _ _ _ Hl) as [Hid Hn].
    assert (Hmax : nextID (rl (sys_world s)) < Int64.max_int) by (cbn [length] in Hb; lia).
    pose proof (live_effect k id once ch o s s1 Hwf Hl Hmax Heff) as Hnext.
    pose proof (nextID_effect o s s1 (conj Hn Hmax) Heff) as Hle.
    rewrite (live_not_closed s Hwf Hl). cbn [negb andb].
    destruct (closes k o); cbn [orb].
    + destruct (over_run t s1 Hwf1 Hnext) as (s' & Hrun & Hwf' & Hov' & Hcount).
      exists s'. split; [done | split; [done | split; [done |]]].
      by rewrite (over_is_closed s1 Hnext), Hcount.
    + destruct (IH s1 Hwf1 Hnext) as (s' & Hrun & Hwf' & Hres & Hcount).
      { cbn [length] in Hb. lia. }
      exists s'. split; [done | split; [done | split; [done |]]].
      by rewrite (live_not_closed s1 Hwf1 Hnext), Hcount.
Qed.

(** When the subscription is over, calling its release closure changes
    neither the reloader nor any channel. *)
Lemma over_release_noop (s : system) :
  wf (sys_world s) -> over k id once ch s ->
  exists s', step (OpRelease k) s = Ok s'
             /\ rl (sys_world s') = rl (sys_world s)
             /\ chans (sys_world s') = chans (sys_world s).
Proof.
  intros Hwf [Hsub Hcl Hdone].
  destruct (step_effect (OpRelease k) s Hwf) as (s' & Hstep & _ & Heff).
  exists s'. split; [done |]. cbn in Heff. unfold eff_rel in Heff. rewrite Hsub in Heff.
  destruct (onces (sys_world s) !! once) as [[]|] eqn:Ho; try by subst s'.
  destruct Hdone as [Hdone|Hdone]; [done |].
  rewrite (wf_closed _ Hwf Hdone), lookup_empty in Heff. by subst s'.
Qed.

End subscription_runs.

(** C7: take any execution, subscribe, and let any calls follow (releases
    of any subscription, Close, notifications, receives, new subscriptions),
    short of 2^63 calls in all. Nothing panics; the channel of the
    subscription is closed by exactly one call when its release closure or
    Close is called at all, and by none otherwise; it is then closed and no
    longer registered, and calling its release closure again changes neither
    the reloader nor any channel. *)
Theorem subscription_closed_exactly_once
    (config : Config.t) (t0 t : list op) (s0 s1 : system)
    (cancel : releaseFn) (ch : nat) :
  run t0 (init config) = Ok s0 ->
  step OpSubscribe s0 = Ok s1 ->
  sys_subs s1 !! length (sys_subs s0) = Some (cancel, Some ch) ->
  Z.of_nat (length t0) + Z.of_nat (length t) < Int64.max_int ->
  exists s2,
    run t s1 = Ok s2
    /\ closings ch t s1
       = (if existsb (closes (length (sys_subs s0))) t then 1 else 0)%nat
    /\ is_closed_b (chans (sys_world s2)) ch = existsb (closes (length (sys_subs s0))) t
    /\ (existsb (closes (length (sys_subs s0))) t = true ->
          (forall i, clients (rl (sys_world s2)) !! i <> Some ch)
          /\ exists s3, step (OpRelease (length (sys_subs s0))) s2 = Ok s3
                        /\ rl (sys_world s3) = rl (sys_world s2)
                        /\ chans (sys_world s3) = chans (sys_world s2)).
Proof.
  intros Hrun0 Hsub Hk Hbound.
  destruct (ids_fresh_run t0 (init config)) as (s0' & Hrun0' & Hwf0 & Hf0 & Hn0).
  { apply wf_new_world. }
  { constructor; cbn; [lia |]. intros k id once c H. by rewrite lookup_nil in H. }
  { cbn. unfold Int64.max_int in *. lia. }
  assert (s0' = s0) as -> by congruence. cbn in Hn0.
  set (w := sys_world s0) in *. set (k := length (sys_subs s0)) in *.
  pose proof (if_next s0 Hf0) as Hnn. fold w in Hnn.
  cbn in Hsub. fold w in Hsub.
  destruct (closed (rl w)) eqn:Hcl.
  { rewrite subscribe_closed in Hsub by done. injection Hsub as <-.
    cbn in Hk. unfold k in Hk. by rewrite list_lookup_middle in Hk. }
  rewrite subscribe_open in Hsub by done. injection Hsub as <-.
  cbn in Hk. unfold k in Hk. rewrite list_lookup_middle in Hk by done.
  injection Hk as <- <-. fold k.
  set (s1 := mkSystem _ _).
  assert (Hwf1 : wf (sys_world s1)).
  { pose proof (wf_subscribe w Hwf0) as H. by rewrite subscribe_open in H. }
  assert (Hlive : live k (nextID (rl w)) (length (onces w)) (length (chans w)) s1).
  { constructor; cbn.
    - by apply list_lookup_middle.
    - by apply list_lookup_middle.
    - done.
    - by rewrite lookup_insert_eq.
    - rewrite wrap_small; [lia |]. unfold Int64.min_int, Int64.max_int in *. lia.
    - intros k' id' once' ch' Hne Hk'.
      apply lookup_app_Some in Hk' as [Hk' | [Hge Hk']].
      + destruct (if_subs s0 Hf0 k' id' once' ch' Hk'). fold w in H, H0. lia.
      + fold k in Hge, Hk'. destruct (k' - k)%nat eqn:E; [lia |]. done. }
  destruct (live_run k (nextID (rl w)) (length (onces w)) (length (chans w)) t s1 Hwf1 Hlive) as (s2 & Hrun & Hwf2 & Hres & Hcount).
  { cbn. rewrite wrap_small; [lia |]. unfold Int64.min_int, Int64.max_int in *. lia. }
  exists s2. split; [done | split; [done |]].
  destruct (existsb (closes k) t).
  - split; [by apply (over_is_closed k (nextID (rl w)) (length (onces w)) _ s2) |].
    intros _. split.
    + intros i Hi. destruct (wf_open _ Hwf2 i _ Hi) as (c & Hc & Ho).
      destruct (over_closed _ _ _ _ _ Hres) as (c' & Hc' & Hcl'). congruence.
    + by apply (over_release_noop k (nextID (rl w)) (length (onces w)) (length (chans w)) s2).
  - split; [by apply (live_not_closed k (nextID (rl w)) (length (onces w)) _ s2) | done].
Qed.

Lemma subscription_closed_exactly_once_witness :
  exists s2,
    run demo_calls (system_after (demo_history ++ [OpSubscribe]) (init demo_config)) = Ok s2
    /\ closings 1 demo_calls
         (system_after (demo_history ++ [OpSubscribe]) (init demo_config))
       = (if existsb (closes (length (sys_subs (system_after demo_history (init demo_config)))))
                     demo_calls
          then 1 else 0)%nat
    /\ is_closed_b (chans (sys_world s2)) 1
       = existsb (closes (length (sys_subs (system_after demo_history (init demo_config)))))
                 demo_calls
    /\ (existsb (closes (length (sys_subs (system_after demo_history (init demo_config)))))
                demo_calls = true ->
          (forall i, clients (rl (sys_world s2)) !! i <> Some 1%nat)
          /\ exists s3,
               step (OpRelease (length (sys_subs (system_after demo_history (init demo_config)))))
                    s2 = Ok s3
               /\ rl (sys_world s3) = rl (sys_world s2)
               /\ chans (sys_world s3) = chans (sys_world s2)).
Proof.
  apply (subscription_closed_exactly_once demo_config demo_history demo_calls
           (system_after demo_history (init demo_config))
           (system_after (demo_history ++ [OpSubscribe]) (init demo_config))
           (release_cancel 1 1) 1%nat).
  - vm_compute. reflexivity.
  - vm_compute. reflexivity.
  - vm_compute. reflexivity.
  - vm_compute. reflexivity.
Defined.

(** The execution above closes the channel of the subscription once, by
    the first call of its release closure; closing a closed channel would be
    a panic. *)
Example subscription_demo :
  closings 1 demo_calls (system_after (demo_history ++ [OpSubscribe]) (init demo_config))
  = 1%nat
  /\ closings 1 [OpNotify; OpRecv 1]
       (system_after (demo_history ++ [OpSubscribe]) (init demo_config)) = 0%nat
  /\ chan_close 0 [mkChan 1 0 true] = Panic.
Proof. vm_compute. repeat split. Qed.

(** ** The order of iteration over the clients

    Go ranges over a map in an unspecified order. In a well-formed state
    the outcome of [Notify] and of [Close] is the same for every order. *)

Lemma list_eq_pointwise (h h1 h2 : list chan) (f1 f2 : nat -> chan -> chan) :
  length h1 = length h -> length h2 = length h ->
  (forall l c, h !! l = Some c -> h1 !! l = Some (f1 l c)) ->
  (forall l c, h !! l = Some c -> h2 !! l = Some (f2 l c)) ->
  (forall l c, h !! l = Some c -> f1 l c = f2 l c) ->
  h1 = h2.
Proof.
  intros Hl1 Hl2 H1 H2 Hf. apply list_eq. intros l.
  destruct (h !! l) as [c|] eqn:Hc.
  - rewrite (H1 l c Hc), (H2 l c Hc). f_equal. by apply Hf.
  - apply lookup_ge_None in Hc.
    rewrite (proj2 (lookup_ge_None h1 l)) by lia.
    by rewrite (proj2 (lookup_ge_None h2 l)) by lia.
Qed.

Lemma Notify_any_order (w : world) (order : list (Z * nat)) :
  wf w -> order ≡ₚ map_to_list (clients (rl w)) ->
  Notify_in order w = Notify w.
Proof.
  intros Hwf Hperm. unfold Notify, Notify_in.
  destruct (closed (rl w)); [done |].
  destruct (notify_loop order (chans w)) as (h1 & -> & Hlen1 & Hh1).
  { intros i c Hin. rewrite Hperm in Hin. apply elem_of_map_to_list in Hin.
    by apply (wf_open w Hwf i). }
  { apply (wf_slot w Hwf). }
  destruct (notify_loop (map_to_list (clients (rl w))) (chans w)) as (h2 & -> & Hlen2 & Hh2).
  { intros i c Hin. apply elem_of_map_to_list in Hin. by apply (wf_open w Hwf i). }
  { apply (wf_slot w Hwf). }
  cbn. do 2 f_equal.
  apply (list_eq_pointwise (chans w) h1 h2
           (fun l c => if decide (l ∈ order.*2) then deposit c else c)
           (fun l c => if decide (l ∈ (map_to_list (clients (rl w))).*2)
                       then deposit c else c)); try done.
  intros l c _.
  destruct (decide (l ∈ order.*2)) as [H|H];
    destruct (decide (l ∈ (map_to_list (clients (rl w))).*2)) as [H'|H']; try done;
    rewrite Hperm in H; done.
Qed.

Lemma Close_locked_any_order (w : world) (order : list (Z * nat)) :
  wf w -> order ≡ₚ map_to_list (clients (rl w)) ->
  Close_locked_in order w = Close_locked w.
Proof.
  intros Hwf Hperm. unfold Close_locked, Close_locked_in.
  destruct (closed (rl w)) eqn:Hcl; [done |].
  set (w0 := with_rl (set_closed true (rl w)) w).
  destruct (close_loop order w0) as (m1 & h1 & -> & Hlen1 & Hm1 & Hh1).
  { rewrite Hperm. by apply wf_NoDup. }
  { intros i c Hin. rewrite Hperm in Hin. apply elem_of_map_to_list in Hin.
    by apply (wf_open w Hwf i). }
  destruct (close_loop (map_to_list (clients (rl w))) w0) as (m2 & h2 & -> & Hlen2 & Hm2 & Hh2).
  { by apply wf_NoDup. }
  { intros i c Hin. apply elem_of_map_to_list in Hin. by apply (wf_open w Hwf i). }
  assert (m1 = m2) as ->.
  { apply map_eq. intros i. rewrite Hm1, Hm2.
    destruct (decide (i ∈ order.*1)) as [H|H];
      destruct (decide (i ∈ (map_to_list (clients (rl w))).*1)) as [H'|H']; try done;
      rewrite Hperm in H; done. }
  assert (h1 = h2) as ->; [|done].
  apply (list_eq_pointwise (chans w) h1 h2
           (fun l c => if decide (l ∈ order.*2) then shut c else c)
           (fun l c => if decide (l ∈ (map_to_list (clients (rl w))).*2)
                       then shut c else c)); try done.
  intros l c _.
  destruct (decide (l ∈ order.*2)) as [H|H];
    destruct (decide (l ∈ (map_to_list (clients (rl w))).*2)) as [H'|H']; try done;
    rewrite Hperm in H; done.
Qed.

(** ** The cache middleware *)

(** When live reload is disabled the request goes to the wrapped handler
    with the writer untouched; when it is enabled the header is set first. *)
Lemma CacheMiddleware_spec (r : Reloader)
    (handler : Request -> ResponseWriter -> ResponseWriter)
    (rq : Request) (w : ResponseWriter) :
  (enabled r = false -> CacheMiddleware r handler rq w = handler rq w)
  /\ (enabled r = true ->
        exists w', CacheMiddleware r handler rq w = handler rq w'
          /\ header w' !! "Cache-Control"
             = Some ["stale-while-revalidate, max-age=" +:+ format_int (maxAge r)]
          /\ (forall key, key <> "Cache-Control" -> header w' !! key = header w !! key)
          /\ status w' = status w /\ written w' = written w).
Proof.
  unfold CacheMiddleware, Enabled. split; intros ->; cbn [negb]; [done |].
  eexists. split; [done |]. cbn. split; [by rewrite lookup_insert_eq |].
  split; [|done]. intros key Hne. by rewrite lookup_insert_ne.
Qed.

Example max_age_examples :
  maxAge (New demo_config) = 3600
  /\ maxAge (New (Config.mk "/dev/reload" true 1999999999)) = 1
  /\ maxAge (New (Config.mk "/dev/reload" true (-1500000000))) = -1
  /\ maxAge (New (Config.mk "/dev/reload" true 8388608999999999)) = 8388608.
Proof. vm_compute. repeat split. Qed.

(** C9, at a maximal age of 16777216.999999999 seconds: [Seconds ()] is
    computed in [float64], where the sum of the whole seconds and of the
    fraction rounds to 16777217.0, so the header announces 16777217 seconds
    where truncation of the duration gives 16777216. *)
Theorem max_age_rounds_up :
  Z.quot (Config.MaxAge long_config) Duration.Second = 16777216
  /\ maxAge (New long_config) = 16777217
  /\ header (CacheMiddleware (New long_config) (fun _ w => w) (mkRequest "GET") fresh_writer)
       !! "Cache-Control"
     = Some ["stale-while-revalidate, max-age=16777217"].
Proof. vm_compute. repeat split. Qed.

(** * Further properties of the code *)

(** ** Executions never panic *)

(** X1: whatever the calls and their order, no execution of the reloader
    panics: no channel is closed twice, and nothing is sent on a closed
    channel. *)
Theorem executions_never_panic (config : Config.t) (t : list op) :
  exists s, run t (init config) = Ok s.
Proof.
  destruct (wf_run t (init config)) as (s & Hrun & _); [apply wf_new_world |].
  by exists s.
Qed.

(** X2: in every reachable state each registered identifier maps to a
    channel of its own, which is open, has one slot and holds at most one
    token. *)
Theorem registry_invariant (s : system) (id : Z) (ch : nat) :
  reachable s ->
  clients (rl (sys_world s)) !! id = Some ch ->
  (exists c, chans (sys_world s) !! ch = Some c
             /\ chan_closed c = false /\ chan_cap c = 1%nat /\ (chan_len c <= 1)%nat)
  /\ forall id', clients (rl (sys_world s)) !! id' = Some ch -> id' = id.
Proof.
  intros Hr Hid. pose proof (reachable_wf s Hr) as Hwf. split.
  - destruct (wf_open _ Hwf id ch Hid) as (c & Hc & Ho).
    destruct (wf_slot _ Hwf ch c Hc) as [Hcap Hlen]. by exists c.
  - intros id' Hid'. by apply (wf_inj _ Hwf id' id ch).
Qed.

Lemma registry_invariant_witness :
  (exists c, chans world_one_client !! 0%nat = Some c
             /\ chan_closed c = false /\ chan_cap c = 1%nat /\ (chan_len c <= 1)%nat)
  /\ forall id', clients (rl world_one_client) !! id' = Some 0%nat -> id' = 0.
Proof.
  apply (registry_invariant system_one_client 0 0%nat).
  - exists demo_config, [OpSubscribe]. vm_compute. reflexivity.
  - vm_compute. reflexivity.
Defined.

(** ** The order of iteration does not matter *)

(** X3: in every reachable state, [Notify] gives the same result whatever
    the order in which the range over the map visits the clients. *)
Theorem Notify_order_irrelevant (s : system) (order : list (Z * nat)) :
  reachable s ->
  order ≡ₚ map_to_list (clients (rl (sys_world s))) ->
  Notify_in order (sys_world s) = Notify (sys_world s).
Proof. intros Hr Hp. apply Notify_any_order; [by apply reachable_wf | done]. Qed.

Lemma Notify_order_irrelevant_witness :
  Notify_in (reverse (map_to_list (clients (rl (sys_world system_two_clients)))))
            (sys_world system_two_clients)
  = Notify (sys_world system_two_clients).
Proof.
  apply (Notify_order_irrelevant system_two_clients).
  - exists demo_config, [OpSubscribe; OpSubscribe]. vm_compute. reflexivity.
  - apply reverse_Permutation.
Defined.

(** X4: in every reachable state, the locked part of [Close] gives the same
    result whatever the order in which the range over the map visits the
    clients, entries being deleted on the way. *)
Theorem Close_order_irrelevant (s : system) (order : list (Z * nat)) :
  reachable s ->
  order ≡ₚ map_to_list (clients (rl (sys_world s))) ->
  Close_locked_in order (sys_world s) = Close_locked (sys_world s).
Proof. intros Hr Hp. apply Close_locked_any_order; [by apply reachable_wf | done]. Qed.

Lemma Close_order_irrelevant_witness :
  Close_locked_in (reverse (map_to_list (clients (rl (sys_world system_two_clients)))))
                  (sys_world system_two_clients)
  = Close_locked (sys_world system_two_clients).
Proof.
  apply (Close_order_irrelevant system_two_clients).
  - exists demo_config, [OpSubscribe; OpSubscribe]. vm_compute. reflexivity.
  - apply reverse_Permutation.
Defined.

Example two_clients_orders_differ :
  reverse (map_to_list (clients (rl (sys_world system_two_clients))))
  <> map_to_list (clients (rl (sys_world system_two_clients))).
Proof. vm_compute. discriminate. Qed.

(** ** Notify after Close *)

(** X5: after [Close], [Notify] returns without a panic and changes
    nothing, any number of times: the final notification of a stopped
    watcher never sends on the channels that [Close] closed. *)
Theorem Notify_after_Close (s : system) (n : nat) :
  reachable s ->
  exists w1, Close (sys_world s) = Ok w1 /\ Notify_times n w1 = Ok w1.
Proof.
  intros Hr. pose proof (reachable_wf s Hr) as Hwf.
  destruct (wf_Close _ Hwf) as (w1 & Hc & _ & Hcl & _).
  exists w1. split; [done |].
  induction n as [|n IH]; [done |].
  cbn. rewrite Notify_closed by done. exact IH.
Qed.

Lemma Notify_after_Close_witness :
  exists w1, Close world_one_client = Ok w1 /\ Notify_times 2 w1 = Ok w1.
Proof.
  apply (Notify_after_Close system_one_client 2).
  exists demo_config, [OpSubscribe]. vm_compute. reflexivity.
Defined.

(** ** Delivery *)

(** X6: a notification reaches a subscriber once. On an open reloader,
    after [subscribe] and one or more calls of [Notify], a receive on the
    returned channel gets a signal at once, and the next receive blocks:
    the channel is empty again and still open. *)
Theorem notification_is_delivered_once
    (s : system) (n : nat) (cancel : releaseFn) (ch : nat) (w1 : world) :
  reachable s ->
  subscribe (sys_world s) = (cancel, Some ch, w1) ->
  (1 <= n)%nat ->
  exists w2 h3,
    Notify_times n w1 = Ok w2
    /\ chan_recv ch (chans w2) = Some (true, h3)
    /\ chan_recv ch h3 = None.
Proof.
  intros Hr Hsub Hn. pose proof (reachable_wf s Hr) as Hwf.
  pose proof (wf_subscribe _ Hwf) as Hwf1.
  destruct (closed (rl (sys_world s))) eqn:Hcl.
  { by rewrite subscribe_closed in Hsub. }
  rewrite subscribe_open in Hsub, Hwf1 by done. injection Hsub as <- <- <-.
  cbn [snd] in Hwf1. destruct n as [|n]; [lia |].
  destruct (Notify_times_client n _ (nextID (rl (sys_world s)))
              (length (chans (sys_world s))) (make_chan 1) Hwf1)
    as (w2 & c2 & Hrun & Hc2 & Hlen & Hcap & Hopen).
  { cbn. by rewrite lookup_insert_eq. }
  { cbn. by rewrite list_lookup_middle. }
  exists w2. eexists. split; [exact Hrun |].
  unfold chan_recv. rewrite Hc2, Hlen. split; [reflexivity |].
  rewrite list_lookup_insert_eq by (eapply lookup_lt_Some; eauto).
  cbn. by rewrite Hopen.
Qed.

Lemma notification_is_delivered_once_witness :
  exists w2 h3,
    Notify_times 3 (subscribe world_one_client).2 = Ok w2
    /\ chan_recv 1 (chans w2) = Some (true, h3)
    /\ chan_recv 1 h3 = None.
Proof.
  apply (notification_is_delivered_once system_one_client 3
           (release_cancel 1 1) 1%nat (subscribe world_one_client).2).
  - exists demo_config, [OpSubscribe]. vm_compute. reflexivity.
  - vm_compute. reflexivity.
  - lia.
Defined.

(** ** Settings *)

Lemma Close_locked_settings (w w' : world) :
  wf w -> Close_locked w = Ok w' ->
  route (rl w') = route (rl w) /\ maxAge (rl w') = maxAge (rl w)
  /\ enabled (rl w') = enabled (rl w).
Proof.
  intros Hwf H. destruct (closed (rl w)) eqn:Hcl.
  - rewrite Close_locked_closed in H by done. by injection H as <-.
  - destruct (Close_locked_spec w Hwf Hcl) as (h' & H' & _). rewrite H' in H.
    by injection H as <-.
Qed.

Lemma call_release_settings (f : releaseFn) (w w' : world) :
  wf w -> call_release f w = Ok w' ->
  route (rl w') = route (rl w) /\ maxAge (rl w') = maxAge (rl w)
  /\ enabled (rl w') = enabled (rl w).
Proof.
  intros Hwf. destruct f as [|id once]; cbn; [by intros [= <-] |].
  unfold once_Do. destruct (onces w !! once) as [[]|]; try by intros [= <-].
  pose proof (release_body_spec id w Hwf) as Hb.
  destruct (clients (rl w) !! id) as [ch|].
  - destruct Hb as (c & _ & _ & ->). cbn. by intros [= <-].
  - rewrite Hb. cbn. by intros [= <-].
Qed.

(** Only [SetEnabled] changes a setting, and only the flag. *)
Lemma step_settings (o : op) (s s' : system) :
  wf (sys_world s) -> step o s = Ok s' ->
  route (rl (sys_world s')) = route (rl (sys_world s))
  /\ maxAge (rl (sys_world s')) = maxAge (rl (sys_world s))
  /\ enabled (rl (sys_world s'))
     = match o with OpSetEnabled b => b | _ => enabled (rl (sys_world s)) end.
Proof.
  intros Hwf Hstep. destruct s as [w subs]. cbn [sys_world] in *.
  destruct o as [|k|k| | | | | |b]; cbn in Hstep.
  - destruct (closed (rl w)) eqn:Hcl.
    + rewrite subscribe_closed in Hstep by done. by injection Hstep as <-.
    + rewrite subscribe_open in Hstep by done. by injection Hstep as <-.
  - destruct (subs !! k) as [[cancel och]|]; [|by injection Hstep as <-].
    destruct (call_release cancel w) as [w'|] eqn:Hrel; [|done].
    cbn in Hstep. injection Hstep as <-. by apply (call_release_settings cancel w).
  - destruct (subs !! k) as [[cancel [ch|]]|]; try by injection Hstep as <-.
    destruct (chan_recv ch (chans w)) as [[ok h]|]; by injection Hstep as <-.
  - destruct (wf_Notify w Hwf) as (w' & Hn & _ & Hrl & _). rewrite Hn in Hstep.
    injection Hstep as <-. cbn. by rewrite Hrl.
  - injection Hstep as <-. cbn. unfold cancel_watcher. by destruct (watchCancel (rl w)).
  - destruct (Close_locked w) as [w'|] eqn:Hc; [|done]. injection Hstep as <-.
    by apply Close_locked_settings.
  - unfold Close in Hstep.
    destruct (Close_locked (cancel_watcher w)) as [w'|] eqn:Hc; [|done].
    injection Hstep as <-. cbn.
    destruct (Close_locked_settings _ _ (wf_cancel_watcher w Hwf) Hc) as (-> & -> & ->).
    unfold cancel_watcher. by destruct (watchCancel (rl w)).
  - by injection Hstep as <-.
  - by injection Hstep as <-.
Qed.

Lemma run_settings (t : list op) :
  forall s s',
    wf (sys_world s) -> run t s = Ok s' ->
    route (rl (sys_world s')) = route (rl (sys_world s))
    /\ maxAge (rl (sys_world s')) = maxAge (rl (sys_world s))
    /\ enabled (rl (sys_world s')) = last_enabled t (enabled (rl (sys_world s))).
Proof.
  induction t as [|o t IH]; intros s s' Hwf Hrun; cbn in Hrun.
  - by injection Hrun as <-.
  - destruct (wf_step o s Hwf) as (s1 & Hstep & Hwf1). rewrite Hstep in Hrun.
    cbn in Hrun. destruct (step_settings o s s1 Hwf Hstep) as (Hr & Hm & He).
    destruct (IH s1 s' Hwf1 Hrun) as (-> & -> & ->).
    rewrite Hr, Hm, He. by destruct o.
Qed.

(** X7: the route and the maximal age are those of the configuration for
    the whole life of the reloader, whatever is called; the enabled flag,
    read by [Enabled] and by the template function, is the one that the last
    [SetEnabled] set, or that of the configuration if there was none. *)
Theorem settings_follow_configuration (config : Config.t) (t : list op) (s : system) :
  run t (init config) = Ok s ->
  LiveReloadRoute (sys_world s) = Config.Route config
  /\ maxAge (rl (sys_world s)) = maxAge (New config)
  /\ Enabled (rl (sys_world s)) = last_enabled t (Config.Enabled config)
  /\ LiveReloadEnabled (sys_world s) = Enabled (rl (sys_world s)).
Proof.
  intros Hrun.
  destruct (run_settings t (init config) s (wf_new_world config) Hrun) as (Hr & Hm & He).
  unfold LiveReloadRoute, LiveReloadEnabled, Enabled. by rewrite Hr, Hm, He.
Qed.

Lemma settings_follow_configuration_witness :
  LiveReloadRoute (sys_world (system_after demo_toggles (init demo_config)))
  = Config.Route demo_config
  /\ maxAge (rl (sys_world (system_after demo_toggles (init demo_config))))
     = maxAge (New demo_config)
  /\ Enabled (rl (sys_world (system_after demo_toggles (init demo_config))))
     = last_enabled demo_toggles (Config.Enabled demo_config)
  /\ LiveReloadEnabled (sys_world (system_after demo_toggles (init demo_config)))
     = Enabled (rl (sys_world (system_after demo_toggles (init demo_config)))).
Proof.
  apply (settings_follow_configuration demo_config demo_toggles
           (system_after demo_toggles (init demo_config))).
  vm_compute. reflexivity.
Defined.

(** X8: the cache middleware reads the flag at each request: after any
    execution it sets the header, with the maximal age computed by [New],
    exactly when the last [SetEnabled] (or else the configuration) enabled
    live reload, and hands the writer on untouched otherwise. *)
Theorem middleware_follows_flag
    (config : Config.t) (t : list op) (s : system)
    (handler : Request -> ResponseWriter -> ResponseWriter)
    (rq : Request) (w : ResponseWriter) :
  run t (init config) = Ok s ->
  CacheMiddleware (rl (sys_world s)) handler rq w
  = if last_enabled t (Config.Enabled config)
    then handler rq
           (Header_Set "Cache-Control"
              ("stale-while-revalidate, max-age=" +:+ format_int (maxAge (New config))) w)
    else handler rq w.
Proof.
  intros Hrun.
  destruct (run_settings t (init config) s (wf_new_world config) Hrun) as (_ & Hm & He).
  unfold CacheMiddleware, Enabled. rewrite He, Hm. cbn.
  by destruct (last_enabled t (Config.Enabled config)).
Qed.

Lemma middleware_follows_flag_witness :
  CacheMiddleware (rl (sys_world (system_after demo_toggles (init demo_config))))
                  (fun _ w => Write "body" w) (mkRequest "GET") fresh_writer
  = if last_enabled demo_toggles (Config.Enabled demo_config)
    then Write "body"
           (Header_Set "Cache-Control"
              ("stale-while-revalidate, max-age=" +:+ format_int (maxAge (New demo_config)))
              fresh_writer)
    else Write "body" fresh_writer.
Proof.
  apply (middleware_follows_flag demo_config demo_toggles
           (system_after demo_toggles (init demo_config))
           (fun _ w => Write "body" w) (mkRequest "GET") fresh_writer).
  vm_compute. reflexivity.
Defined.

(** ** The fingerprint, continued *)

(** X9: [directoryFingerprint] returns either an error with the empty
    string, or no error with a string of forty characters. *)
Theorem fingerprint_shape (dir : FS) :
  match directoryFingerprint dir with
  | (fp, None) => String.length fp = 40%nat
  | (fp, Some _) => fp = ""
  end.
Proof.
  destruct (directoryFingerprint dir) as [fp [e|]] eqn:E.
  - unfold directoryFingerprint in E.
    destruct (WalkDir fingerprint_visit dir "." "") as [[e'|] h]; by injection E as <-.
  - by apply (directoryFingerprint_length dir).
Qed.





(** ** The watcher, continued *)




(** A resized file is noticed at the next read. *)
Example watcher_notices_resize :
  snd (watcher_trace Spawned [Scan tree_a; Scan tree_a_with_dir; Scan tree_a_resized;
                              Scan tree_a_resized])
  = [DoNotify].
Proof. vm_compute. reflexivity. Qed.

Lemma call_release_watch (f : releaseFn) (w w' : world) :
  wf w -> call_release f w = Ok w' ->
  watchCancel (rl w') = watchCancel (rl w) /\ contexts w' = contexts w.
Proof.
  intros Hwf. destruct f as [|id once]; cbn; [by intros [= <-] |].
  unfold once_Do. destruct (onces w !! once) as [[]|]; try by intros [= <-].
  pose proof (release_body_spec id w Hwf) as Hb.
  destruct (clients (rl w) !! id) as [ch|].
  - destruct Hb as (c & _ & _ & ->). cbn. by intros [= <-].
  - rewrite Hb. cbn. by intros [= <-].
Qed.

(** Only [Start] changes the stored cancel function, to that of a fresh
    context; no call removes a context. *)
Lemma step_watch (o : op) (s s' : system) :
  wf (sys_world s) -> step o s = Ok s' ->
  (watchCancel (rl (sys_world s')) = Some (length (contexts (sys_world s)))
   /\ length (contexts (sys_world s')) = S (length (contexts (sys_world s))))
  \/ (watchCancel (rl (sys_world s')) = watchCancel (rl (sys_world s))
      /\ length (contexts (sys_world s')) = length (contexts (sys_world s))).
Proof.
  intros Hwf Hstep. destruct s as [w subs]. cbn [sys_world] in *.
  assert (Hcw : watchCancel (rl (cancel_watcher w)) = watchCancel (rl w)
                /\ length (contexts (cancel_watcher w)) = length (contexts w)).
  { unfold cancel_watcher. destruct (watchCancel (rl w)) eqn:E; cbn; [|done].
    by rewrite length_insert. }
  destruct o as [|k|k| | | | | |b]; cbn in Hstep.
  - right. destruct (closed (rl w)) eqn:Hcl.
    + rewrite subscribe_closed in Hstep by done. by injection Hstep as <-.
    + rewrite subscribe_open in Hstep by done. by injection Hstep as <-.
  - right. destruct (subs !! k) as [[cancel och]|]; [|by injection Hstep as <-].
    destruct (call_release cancel w) as [w'|] eqn:Hrel; [|done].
    cbn in Hstep. injection Hstep as <-. cbn.
    destruct (call_release_watch cancel w w' Hwf Hrel) as [-> ->]. done.
  - right. destruct (subs !! k) as [[cancel [ch|]]|]; try by injection Hstep as <-.
    destruct (chan_recv ch (chans w)) as [[ok h]|]; by injection Hstep as <-.
  - right. destruct (wf_Notify w Hwf) as (w' & Hn & _ & Hrl & _ & Hctx & _).
    rewrite Hn in Hstep. injection Hstep as <-. cbn. by rewrite Hrl, Hctx.
  - right. by injection Hstep as <-.
  - right. destruct (Close_locked w) as [w'|] eqn:Hc; [|done]. injection Hstep as <-. cbn.
    destruct (Close_locked_frame w w' Hwf Hc) as (-> & _ & ->). done.
  - right. unfold Close in Hstep.
    destruct (Close_locked (cancel_watcher w)) as [w'|] eqn:Hc; [|done].
    injection Hstep as <-. cbn.
    destruct (Close_locked_frame _ w' (wf_cancel_watcher w Hwf) Hc) as (-> & _ & ->).
    done.
  - left. injection Hstep as <-. cbn. rewrite length_app. cbn. split; [done | lia].
  - right. by injection Hstep as <-.
Qed.

(** The stored cancel function is that of a context that exists. *)
Lemma watchCancel_valid (s : system) (ctx : nat) :
  reachable s -> watchCancel (rl (sys_world s)) = Some ctx ->
  (ctx < length (contexts (sys_world s)))%nat.
Proof.
  intros (config & t & Hrun). revert ctx.
  assert (Hgen : forall t s0 s1,
            wf (sys_world s0) ->
            (forall c, watchCancel (rl (sys_world s0)) = Some c ->
                       (c < length (contexts (sys_world s0)))%nat) ->
            run t s0 = Ok s1 ->
            forall c, watchCancel (rl (sys_world s1)) = Some c ->
                      (c < length (contexts (sys_world s1)))%nat).
  { clear. induction t as [|o t IH]; intros s0 s1 Hwf H0 Hrun; cbn in Hrun.
    - by injection Hrun as <-.
    - destruct (wf_step o s0 Hwf) as (s' & Hstep & Hwf'). rewrite Hstep in Hrun.
      cbn in Hrun. apply (IH s' s1 Hwf'); [|done].
      intros c Hc. destruct (step_watch o s0 s' Hwf Hstep) as [[Hw Hl] | [Hw Hl]].
      + rewrite Hw in Hc. injection Hc as <-. lia.
      + rewrite Hw in Hc. rewrite Hl. by apply H0. }
  apply (Hgen t (init config) s); [apply wf_new_world | | done].
  cbn. done.
Qed.

(** X12: [Close] lets the watcher of the last [Start] stop. Once [Close]
    returned, the [select] of that goroutine can take [ctx.Done ()]; the
    goroutine then returns, and its deferred [Notify] neither panics nor
    changes anything; it does nothing afterwards. *)
Theorem Close_stops_the_watcher (s : system) (g : goroutine) (last : string)
    (evs : list wevent) :
  reachable s ->
  watchCancel (rl (sys_world s)) = Some (g_ctx g) ->
  g_phase g = Polling last ->
  exists w1,
    Close (sys_world s) = Ok w1
    /\ ready w1 g Done = true
    /\ goroutine_step Done w1 g = Ok (w1, mkGoroutine (g_ctx g) Exited)
    /\ goroutine_run evs w1 (mkGoroutine (g_ctx g) Exited)
       = Ok (w1, mkGoroutine (g_ctx g) Exited).
Proof.
  intros Hr Hwc Hph. pose proof (reachable_wf s Hr) as Hwf.
  pose proof (watchCancel_valid s (g_ctx g) Hr Hwc) as Hlt.
  set (w := sys_world s) in *.
  pose proof (wf_cancel_watcher w Hwf) as Hwf0.
  destruct (wf_Close w Hwf) as (w1 & Hc & Hwf1 & Hcl & Hm).
  assert (Hctx : contexts w1 !! g_ctx g = Some true).
  { unfold Close in Hc. destruct (Close_locked_frame _ _ Hwf0 Hc) as (-> & _).
    unfold cancel_watcher. rewrite Hwc. cbn. by apply list_lookup_insert_eq. }
  assert (Hready : ready w1 g Done = true) by (cbn; by rewrite Hctx).
  exists w1. split; [done | split; [done | split]].
  - unfold goroutine_step. rewrite Hready, Hph. cbn.
    by rewrite Notify_closed.
  - induction evs as [|ev evs IH]; [done |].
    cbn [goroutine_run]. unfold goroutine_step.
    destruct (ready w1 (mkGoroutine (g_ctx g) Exited) ev); cbn; exact IH.
Qed.

Lemma Close_stops_the_watcher_witness :
  exists w1,
    Close (sys_world system_watching) = Ok w1
    /\ ready w1 goroutine_polling Done = true
    /\ goroutine_step Done w1 goroutine_polling = Ok (w1, mkGoroutine 0 Exited)
    /\ goroutine_run [Scan tree_a; Done; Scan tree_a_resized] w1 (mkGoroutine 0 Exited)
       = Ok (w1, mkGoroutine 0 Exited).
Proof.
  apply (Close_stops_the_watcher system_watching goroutine_polling "0000"
           [Scan tree_a; Done; Scan tree_a_resized]).
  - exists demo_config, [OpSubscribe; OpStart; OpNotify]. vm_compute. reflexivity.
  - vm_compute. reflexivity.
  - reflexivity.
Defined.

(** ** The subscription of a connection *)

Section connection.
Variables (id : Z) (once ch : nat).

Lemma held_chan_open (s : system) :
  wf (sys_world s) -> held id once ch s -> chan_open (chans (sys_world s)) ch.
Proof. intros Hwf Hh. apply (wf_open _ Hwf id). apply (held_client _ _ _ _ Hh). Qed.

Lemma held_eff_chans (s s' : system) :
  held id once ch s -> eff_chans s s' -> held id once ch s'.
Proof. intros [H1 H2 H3 H4 H5] (h' & -> & _). by constructor. Qed.

Lemma held_eff_misc (s s' : system) :
  held id once ch s -> eff_misc s s' -> held id once ch s'.
Proof.
  intros [H1 H2 H3 H4 H5] (r' & ctxs' & -> & Hc & Hn & Hm).
  constructor; cbn; try done; congruence.
Qed.

Lemma held_eff_sub (s s' : system) :
  held id once ch s ->
  nextID (rl (sys_world s)) < Int64.max_int ->
  eff_sub s s' -> held id once ch s'.
Proof.
  intros [H1 H2 H3 [H4 H4'] H5] Hmax [[Hcl _] | [_ ->]]; [congruence |].
  constructor; cbn.
  - by apply lookup_app_l_Some.
  - done.
  - rewrite lookup_insert_ne; [done | lia].
  - rewrite wrap_small; [lia |]. unfold Int64.min_int, Int64.max_int in *. lia.
  - intros k' id' once' ch' Hsub.
    apply lookup_app_Some in Hsub as [Hsub | [_ Hsub]]; [by eapply H5 |].
    destruct (k' - length (sys_subs s))%nat; cbn in Hsub; [|done].
    injection Hsub as <- <- _. apply lookup_lt_Some in H1. split; lia.
Qed.

Lemma held_eff_rel (k' : nat) (s s' : system) :
  held id once ch s -> eff_rel k' s s' -> held id once ch s'.
Proof.
  intros [H1 H2 H3 H4 H5] Heff. unfold eff_rel in Heff.
  destruct (sys_subs s !! k') as [[[|id' once'] och]|] eqn:Hsub; try by subst s'.
  destruct (H5 k' id' once' och Hsub) as [Hid Honce].
  destruct (onces (sys_world s) !! once') as [[]|]; try by subst s'.
  destruct (clients (rl (sys_world s)) !! id') as [ch'|].
  - destruct Heff as (c & Hc & Ho & ->). constructor; cbn; try done.
    + by rewrite list_lookup_insert_ne.
    + by rewrite lookup_delete_ne.
  - subst s'. constructor; cbn; try done. by rewrite list_lookup_insert_ne.
Qed.

Lemma held_eff_close (s s' : system) :
  wf (sys_world s) -> held id once ch s -> eff_close s s' ->
  chan_is_closed (chans (sys_world s')) ch.
Proof.
  intros Hwf Hh [[Hcl _] | [_ (h' & -> & _ & Hh')]].
  - rewrite (held_open _ _ _ _ Hh) in Hcl. done.
  - destruct (held_chan_open s Hwf Hh) as (c & Hc & Ho).
    exists (shut c). split; [|done]. cbn. apply (Hh' ch c Hc).
    exists id. apply (held_client _ _ _ _ Hh).
Qed.

(** A closed channel stays closed. *)
Lemma closed_effect (o : op) (s s' : system) :
  chan_is_closed (chans (sys_world s)) ch -> op_effect o s s' ->
  chan_is_closed (chans (sys_world s')) ch.
Proof.
  intros (c & Hc & Hcl) Heff.
  assert (Hchans : forall a b, chans (sys_world a) !! ch = Some c -> eff_chans a b ->
            chan_is_closed (chans (sys_world b)) ch).
  { intros a b Ha (h' & -> & _ & Hh). destruct (Hh ch c Ha) as (c' & Hc' & Heq).
    exists c'. split; [done | congruence]. }
  assert (Hmisc : forall a b, chans (sys_world a) !! ch = Some c -> eff_misc a b ->
            chans (sys_world b) !! ch = Some c).
  { by intros a b Ha (r' & ctxs' & -> & _). }
  assert (Hclose : forall a b, chans (sys_world a) !! ch = Some c -> eff_close a b ->
            chan_is_closed (chans (sys_world b)) ch).
  { intros a b Ha [[_ ->] | [_ (h' & -> & _ & Hh)]]; [by exists c |].
    destruct (Hh ch c Ha) as [Hreg Hnot]. cbn.
    destruct (decide (ch ∈ (map_to_list (clients (rl (sys_world a)))).*2)) as [Hin|Hnin].
    - exists (shut c). split; [|done]. apply Hreg. by apply registered_iff.
    - exists c. split; [|done]. apply Hnot. intros i Hi. apply Hnin.
      apply registered_iff. eauto. }
  destruct o as [|k'|k'| | | | | |b]; cbn in Heff.
  - destruct Heff as [[_ ->] | [_ ->]]; cbn.
    + by exists c.
    + exists c. split; [by apply lookup_app_l_Some | done].
  - unfold eff_rel in Heff.
    destruct (sys_subs s !! k') as [[[|id' once'] och]|]; try (subst s'; by exists c).
    destruct (onces (sys_world s) !! once') as [[]|]; try (subst s'; by exists c).
    destruct (clients (rl (sys_world s)) !! id') as [ch'|].
    + destruct Heff as (c' & Hc' & Hopen & ->). cbn.
      exists c. split; [|done]. rewrite list_lookup_insert_ne; [done |].
      intros ->. congruence.
    + subst s'. by exists c.
  - by apply (Hchans s).
  - by apply (Hchans s).
  - exists c. split; [by apply (Hmisc s) | done].
  - by apply (Hclose s).
  - destruct Heff as (s1 & Hm & Hcl1). apply (Hclose s1); [|done]. by apply (Hmisc s).
  - exists c. split; [by apply (Hmisc s) | done].
  - exists c. split; [by apply (Hmisc s) | done].
Qed.

(** A call of another caller leaves the subscription of the connection as
    it is, unless it closes the reloader. *)
Lemma held_effect (o : op) (s s' : system) :
  wf (sys_world s) ->
  held id once ch s ->
  nextID (rl (sys_world s)) < Int64.max_int ->
  op_effect o s s' ->
  held id once ch s' \/ chan_is_closed (chans (sys_world s')) ch.
Proof.
  intros Hwf Hh Hmax Heff. destruct o as [|k'|k'| | | | | |b]; cbn in Heff.
  - left. by apply (held_eff_sub s).
  - left. by apply (held_eff_rel k' s).
  - left. by apply (held_eff_chans s).
  - left. by apply (held_eff_chans s).
  - left. by apply (held_eff_misc s).
  - right. by apply (held_eff_close s).
  - right. destruct Heff as (s1 & Hm & Hc). apply (held_eff_close s1); [| |done].
    + destruct Hm as (r' & ctxs' & -> & Hc1 & Hn1 & Hm1). cbn.
      destruct Hwf as [Ha Hb Hcc Hd]. constructor; cbn; rewrite ?Hm1, ?Hc1; done.
    + by apply (held_eff_misc s).
  - left. by apply (held_eff_misc s).
  - left. by apply (held_eff_misc s).
Qed.

Lemma recv_eff_chans (w : world) (subs : list (releaseFn * option nat))
    (ch0 : nat) (ok : bool) (h : list chan) :
  chan_recv ch0 (chans w) = Some (ok, h) ->
  eff_chans (mkSystem w subs) (mkSystem (with_chans h w) subs).
Proof.
  intros Hr. exists h. split; [done |]. cbn.
  apply chan_recv_spec in Hr as (c & Hc & [(-> & n & Hn & ->) | (-> & _ & _ & ->)]).
  - split; [by rewrite length_insert |]. intros l c' Hl.
    destruct (decide (l = ch0)) as [->|Hne].
    + eexists. split; [apply list_lookup_insert_eq; eapply lookup_lt_Some; eauto |].
      cbn. congruence.
    + exists c'. by rewrite list_lookup_insert_ne.
  - split; [done |]. intros l c' Hl. by exists c'.
Qed.

(** The release closure of the connection closes its channel, if it is not
    closed yet. *)
Lemma own_release_closes (w : world) (subs : list (releaseFn * option nat)) :
  wf w ->
  held id once ch (mkSystem w subs) \/ chan_is_closed (chans w) ch ->
  exists w', call_release (release_cancel id once) w = Ok w' /\ wf w'
             /\ chan_is_closed (chans w') ch.
Proof.
  intros Hwf Hinv.
  destruct (wf_call_release (release_cancel id once) w Hwf) as (w' & Hrel & Hwf').
  exists w'. split; [done | split; [done |]].
  destruct (step_effect (OpRelease 0) (mkSystem w [(release_cancel id once, None)]) Hwf)
    as (s' & Hstep & _ & Heff).
  assert (Hs : step (OpRelease 0) (mkSystem w [(release_cancel id once, None)])
               = (w0 ← call_release (release_cancel id once) w;
                  Ok (mkSystem w0 [(release_cancel id once, None)]))) by reflexivity.
  rewrite Hs, Hrel in Hstep. cbn in Hstep. injection Hstep as <-.
  destruct Hinv as [Hh | Hcl].
  - cbn in Heff. unfold eff_rel in Heff. cbn in Heff.
    pose proof (held_once _ _ _ _ Hh) as Ho1. pose proof (held_client _ _ _ _ Hh) as Hc1.
    cbn in Ho1, Hc1. rewrite Ho1, Hc1 in Heff.
    destruct Heff as (c & Hc & Ho & Heq). injection Heq as ->. cbn.
    exists (shut c). split; [|done]. apply list_lookup_insert_eq.
    eapply lookup_lt_Some; eauto.
  - by apply (closed_effect (OpRelease 0) (mkSystem w [(release_cancel id once, None)])
                (mkSystem w' [(release_cancel id once, None)])).
Qed.

End connection.

Section connection_runs.
Variables (id : Z) (once ch : nat).

Lemma call_release_keeps_closed (f : releaseFn) (w w' : world) :
  wf w -> call_release f w = Ok w' ->
  chan_is_closed (chans w) ch -> chan_is_closed (chans w') ch.
Proof.
  intros Hwf Hrel Hcl.
  destruct (step_effect (OpRelease 0) (mkSystem w [(f, None)]) Hwf) as (s' & Hstep & _ & Heff).
  assert (Hs : step (OpRelease 0) (mkSystem w [(f, None)])
               = (w0 ← call_release f w; Ok (mkSystem w0 [(f, None)]))) by reflexivity.
  rewrite Hs, Hrel in Hstep. cbn in Hstep. injection Hstep as <-.
  by apply (closed_effect ch (OpRelease 0) (mkSystem w [(f, None)]) (mkSystem w' [(f, None)])).
Qed.

Lemma call_release_nextID (f : releaseFn) (w w' : world) :
  wf w -> call_release f w = Ok w' -> nextID (rl w') = nextID (rl w).
Proof.
  intros Hwf. destruct f as [|i o]; cbn; [by intros [= <-] |].
  unfold once_Do. destruct (onces w !! o) as [[]|]; try by intros [= <-].
  pose proof (release_body_spec i w Hwf) as Hb.
  destruct (clients (rl w) !! i) as [c|].
  - destruct Hb as (c0 & _ & _ & ->). cbn. by intros [= <-].
  - rewrite Hb. cbn. by intros [= <-].
Qed.

Lemma recv_keeps_closed (w : world) (ch0 : nat) (ok : bool) (h : list chan) :
  chan_recv ch0 (chans w) = Some (ok, h) ->
  chan_is_closed (chans w) ch -> chan_is_closed h ch.
Proof.
  intros Hr Hcl.
  by apply (closed_effect ch OpNotify (mkSystem w []) (mkSystem (with_chans h w) [])
              Hcl (recv_eff_chans w [] ch0 ok h Hr)).
Qed.

(** A step of a connection whose channel is closed. *)
Lemma Handler_step_closed (ev : hevent) (c : conn) (s : system) :
  wf (sys_world s) -> conn_closed ch c s ->
  exists c' wd',
    Handler_step ev c (sys_world s) = Ok (c', wd') /\ wf wd'
    /\ conn_closed ch c' (mkSystem wd' (sys_subs s)).
Proof.
  intros Hwf [Hcl Hc]. destruct c as [w cancel ch0 | w]; cbn [Handler_step].
  2: { exists (Returned w), (sys_world s). split; [done | split; [done |]]. by split. }
  subst ch0. destruct ev as [|write_ok].
  - destruct (wf_call_release cancel _ Hwf) as (wd' & Hrel & Hwf'). rewrite Hrel.
    exists (Returned w), wd'. split; [done | split; [done |]]. split; [|done].
    by apply (call_release_keeps_closed cancel (sys_world s)).
  - destruct (chan_recv ch (chans (sys_world s))) as [[[] h]|] eqn:Hr.
    + pose proof (wf_recv _ ch true h Hwf Hr) as Hwf1.
      pose proof (recv_keeps_closed _ ch true h Hr Hcl) as Hcl1.
      destruct write_ok.
      * eexists _, _. split; [done | split; [done |]]. by split.
      * destruct (wf_call_release cancel _ Hwf1) as (wd' & Hrel & Hwf'). rewrite Hrel.
        eexists _, _. split; [done | split; [done |]]. split; [|done].
        by apply (call_release_keeps_closed cancel (with_chans h (sys_world s))).
    + pose proof (wf_recv _ ch false h Hwf Hr) as Hwf1.
      pose proof (recv_keeps_closed _ ch false h Hr Hcl) as Hcl1.
      destruct (wf_call_release cancel _ Hwf1) as (wd' & Hrel & Hwf'). rewrite Hrel.
      eexists _, _. split; [done | split; [done |]]. split; [|done].
      by apply (call_release_keeps_closed cancel (with_chans h (sys_world s))).
    + eexists _, _. split; [done | split; [done |]]. by split.
Qed.

(** A step of a connection that holds its subscription. *)
Lemma Handler_step_held (ev : hevent) (w : ResponseWriter) (s : system) :
  wf (sys_world s) -> held id once ch s ->
  exists c' wd',
    Handler_step ev (Streaming w (release_cancel id once) ch) (sys_world s) = Ok (c', wd')
    /\ wf wd'
    /\ nextID (rl wd') = nextID (rl (sys_world s))
    /\ ((exists w1, c' = Streaming w1 (release_cancel id once) ch
                    /\ held id once ch (mkSystem wd' (sys_subs s)))
        \/ conn_closed ch c' (mkSystem wd' (sys_subs s))).
Proof.
  intros Hwf Hh. destruct s as [wd subs]. cbn [sys_world sys_subs] in *.
  cbn [Handler_step]. destruct ev as [|write_ok].
  - destruct (own_release_closes id once ch wd subs Hwf (or_introl Hh))
      as (wd' & Hrel & Hwf' & Hcl).
    rewrite Hrel. eexists _, wd'. split; [done | split; [done |]].
    split; [by apply (call_release_nextID (release_cancel id once) wd) |]. right. by split.
  - destruct (chan_recv ch (chans wd)) as [[ok h]|] eqn:Hr.
    + pose proof (wf_recv _ ch ok h Hwf Hr) as Hwf1.
      pose proof (held_eff_chans id once ch _ _ Hh (recv_eff_chans wd subs ch ok h Hr)) as Hh1.
      destruct (own_release_closes id once ch (with_chans h wd) subs Hwf1 (or_introl Hh1))
        as (wd' & Hrel & Hwf' & Hcl).
      pose proof (call_release_nextID _ _ _ Hwf1 Hrel) as Hn.
      destruct ok; [destruct write_ok |].
      * eexists _, _. split; [done | split; [done | split; [done |]]]. left. eauto.
      * rewrite Hrel. eexists _, _. split; [done | split; [done | split; [done |]]].
        right. by split.
      * rewrite Hrel. eexists _, _. split; [done | split; [done | split; [done |]]].
        right. by split.
    + eexists _, _. split; [done | split; [done | split; [done |]]]. left. eauto.
Qed.

Lemma Handler_run_closed (sch : list sched) :
  forall (c : conn) (s : system),
    wf (sys_world s) -> conn_closed ch c s ->
    exists c' s' n,
      Handler_run sch c s = Ok (c', s', n) /\ wf (sys_world s')
      /\ conn_closed ch c' s'.
Proof.
  induction sch as [|[o|ev] sch IH]; intros c s Hwf Hcc; cbn [Handler_run].
  - by exists c, s, O.
  - destruct (step_effect o s Hwf) as (s1 & -> & Hwf1 & Heff). cbn.
    apply IH; [done |]. destruct Hcc as [Hcl Hc]. split; [|done].
    by apply (closed_effect ch o s).
  - destruct (Handler_step_closed ev c s Hwf Hcc) as (c1 & wd1 & -> & Hwf1 & Hcc1). cbn.
    destruct (IH c1 (mkSystem wd1 (sys_subs s)) Hwf1 Hcc1) as (c' & s' & n & -> & H).
    cbn. by eexists _, _, _.
Qed.

Lemma Handler_run_held (sch : list sched) :
  forall (w : ResponseWriter) (s : system),
    wf (sys_world s) -> held id once ch s ->
    nextID (rl (sys_world s)) + Z.of_nat (length sch) <= Int64.max_int ->
    exists c' s' n,
      Handler_run sch (Streaming w (release_cancel id once) ch) s = Ok (c', s', n)
      /\ wf (sys_world s')
      /\ ((exists w1, c' = Streaming w1 (release_cancel id once) ch /\ held id once ch s')
          \/ conn_closed ch c' s').
Proof.
  induction sch as [|[o|ev] sch IH]; intros w s Hwf Hh Hb; cbn [Handler_run].
  - eexists _, s, O. split; [done | split; [done |]]. left. eauto.
  - destruct (step_effect o s Hwf) as (s1 & -> & Hwf1 & Heff). cbn.
    destruct (held_next _ _ _ _ Hh) as [_ Hn].
    assert (Hmax : nextID (rl (sys_world s)) < Int64.max_int) by (cbn [length] in Hb; lia).
    pose proof (nextID_effect o s s1 (conj Hn Hmax) Heff) as Hle.
    destruct (held_effect id once ch o s s1 Hwf Hh Hmax Heff) as [Hh1 | Hcl1].
    + apply IH; [done | done |]. cbn [length] in Hb. lia.
    + destruct (Handler_run_closed sch (Streaming w (release_cancel id once) ch) s1 Hwf1)
        as (c' & s' & n & Hrun & Hwf' & Hcc); [by split |].
      exists c', s', n. split; [done | split; [done |]]. by right.
  - destruct (Handler_step_held ev w s Hwf Hh) as (c1 & wd1 & -> & Hwf1 & Hn1 & Hres). cbn.
    destruct Hres as [(w1 & -> & Hh1) | Hcc1].
    + destruct (IH w1 (mkSystem wd1 (sys_subs s)) Hwf1 Hh1) as (c' & s' & n & -> & H).
      { cbn. rewrite Hn1. cbn [length] in Hb. lia. }
      cbn. by eexists _, _, _.
    + destruct (Handler_run_closed sch c1 (mkSystem wd1 (sys_subs s)) Hwf1 Hcc1)
        as (c' & s' & n & -> & Hwf' & Hcc).
      cbn. eexists _, _, _. split; [done | split; [done |]]. by right.
Qed.

End connection_runs.

(** The handler, past its checks on an open reloader, holds a fresh
    subscription when it enters its loop, and has released it when the first
    write failed. *)
Lemma Handler_subscribes (s : system) (rq : Request) (w : ResponseWriter) (write_ok : bool) :
  wf (sys_world s) -> ids_fresh s ->
  nextID (rl (sys_world s)) < Int64.max_int ->
  Method rq = "GET" -> isFlusher w = true -> closed (rl (sys_world s)) = false ->
  exists c0 wd,
    Handler rq w write_ok (sys_world s) = Ok (c0, wd)
    /\ wf wd
    /\ nextID (rl wd) = nextID (rl (sys_world s)) + 1
    /\ ((exists w1, c0 = Streaming w1 (release_cancel (nextID (rl (sys_world s)))
                                                      (length (onces (sys_world s))))
                                   (length (chans (sys_world s)))
                    /\ held (nextID (rl (sys_world s))) (length (onces (sys_world s)))
                            (length (chans (sys_world s))) (mkSystem wd (sys_subs s)))
        \/ conn_closed (length (chans (sys_world s))) c0 (mkSystem wd (sys_subs s))).
Proof.
  intros Hwf Hf Hmax Hm Hfl Hcl. pose proof (if_next s Hf) as Hn.
  set (wd := sys_world s) in *.
  pose proof (wf_subscribe wd Hwf) as Hwf1. rewrite subscribe_open in Hwf1 by done.
  cbn [snd] in Hwf1.
  set (wd1 := {| rl := set_clients (<[nextID (rl wd) := length (chans wd)]> (clients (rl wd)))
                          (set_nextID (Int64.wrap (nextID (rl wd) + 1)) (rl wd));
                 chans := chans wd ++ [make_chan 1];
                 onces := onces wd ++ [false];
                 contexts := contexts wd |}) in *.
  assert (Hw : Int64.wrap (nextID (rl wd) + 1) = nextID (rl wd) + 1).
  { apply wrap_small. unfold Int64.min_int, Int64.max_int in *. lia. }
  assert (Hheld : held (nextID (rl wd)) (length (onces wd)) (length (chans wd))
                       (mkSystem wd1 (sys_subs s))).
  { constructor; cbn.
    - by apply list_lookup_middle.
    - done.
    - by rewrite lookup_insert_eq.
    - rewrite Hw. lia.
    - intros k' id' once' ch' Hk'.
      destruct (if_subs s Hf k' id' once' ch' Hk') as [H1 H2]. fold wd in H1, H2. lia. }
  unfold Handler. rewrite Hm, Hfl, String.eqb_refl. cbn [negb].
  rewrite subscribe_open by done. fold wd1. destruct write_ok.
  - eexists _, wd1. split; [done | split; [done | split; [exact Hw |]]]. left. eauto.
  - destruct (own_release_closes _ _ _ wd1 (sys_subs s) Hwf1 (or_introl Hheld))
      as (wd' & Hrel & Hwf' & Hclosed).
    rewrite Hrel. cbn [mbind result_bind].
    eexists _, wd'. split; [done | split; [done | split]].
    + rewrite (call_release_nextID _ _ _ Hwf1 Hrel). exact Hw.
    + right. by split.
Qed.

Lemma init_ids_fresh (config : Config.t) : ids_fresh (init config).
Proof.
  constructor; cbn; [lia |]. intros k id once c H. by rewrite lookup_nil in H.
Qed.

(** X13: the handler never leaves a stale subscriber behind. Take any
    execution, then a GET on a writer that can flush while the reloader is
    open, then any interleaving of the steps of that connection with the
    calls of others (short of 2^63 calls in all). Nothing panics, and once
    the handler has returned, for whatever reason, the channel it subscribed
    is closed and the map holds no entry for it. *)
Theorem handler_releases_on_return
    (config : Config.t) (t0 : list op) (s : system)
    (rq : Request) (w : ResponseWriter) (write_ok : bool) (sch : list sched) :
  run t0 (init config) = Ok s ->
  Z.of_nat (length t0) + Z.of_nat (length sch) < Int64.max_int ->
  Method rq = "GET" -> isFlusher w = true -> closed (rl (sys_world s)) = false ->
  exists c0 wd c' s' n,
    Handler rq w write_ok (sys_world s) = Ok (c0, wd)
    /\ Handler_run sch c0 (mkSystem wd (sys_subs s)) = Ok (c', s', n)
    /\ (c' = Returned (conn_writer c') ->
        is_closed_b (chans (sys_world s')) (length (chans (sys_world s))) = true
        /\ forall i, clients (rl (sys_world s')) !! i <> Some (length (chans (sys_world s)))).
Proof.
  intros Hrun Hb Hm Hfl Hcl.
  destruct (ids_fresh_run t0 (init config)) as (s0 & Hrun0 & Hwf & Hf & Hn0).
  { apply wf_new_world. }
  { apply init_ids_fresh. }
  { cbn. unfold Int64.max_int in *. lia. }
  assert (s0 = s) as -> by congruence. cbn in Hn0.
  destruct (Handler_subscribes s rq w write_ok Hwf Hf) as (c0 & wd & HH & Hwf1 & Hn1 & Hres);
    try done; [lia |].
  assert (Hfin : exists c' s' n,
            Handler_run sch c0 (mkSystem wd (sys_subs s)) = Ok (c', s', n)
            /\ wf (sys_world s')
            /\ (c' = Returned (conn_writer c') ->
                chan_is_closed (chans (sys_world s')) (length (chans (sys_world s))))).
  { destruct Hres as [(w1 & -> & Hh) | Hcc].
    - destruct (Handler_run_held _ _ _ sch w1 (mkSystem wd (sys_subs s)) Hwf1 Hh)
        as (c' & s' & n & Hr & Hwf' & Hres').
      { cbn. lia. }
      exists c', s', n. split; [done | split; [done |]]. intros Hc'.
      destruct Hres' as [(w2 & -> & _) | [Hcl' _]]; [done | done].
    - destruct (Handler_run_closed _ sch c0 (mkSystem wd (sys_subs s)) Hwf1 Hcc)
        as (c' & s' & n & Hr & Hwf' & [Hcl' _]).
      by exists c', s', n. }
  destruct Hfin as (c' & s' & n & Hr & Hwf' & Hclosed).
  exists c0, wd, c', s', n. split; [done | split; [done |]]. intros Hc'.
  destruct (Hclosed Hc') as (c & Hc & Hcc). split.
  - unfold is_closed_b. by rewrite Hc.
  - intros i Hi. destruct (wf_open _ Hwf' i _ Hi) as (c1 & Hc1 & Ho). congruence.
Qed.

Lemma handler_releases_on_return_witness :
  exists c0 wd c' s' n,
    Handler (mkRequest "GET") fresh_writer true (sys_world system_one_client) = Ok (c0, wd)
    /\ Handler_run (busy_schedule ++ [Conn ContextDone]) c0
         (mkSystem wd (sys_subs system_one_client)) = Ok (c', s', n)
    /\ (c' = Returned (conn_writer c') ->
        is_closed_b (chans (sys_world s')) (length (chans (sys_world system_one_client)))
        = true
        /\ forall i, clients (rl (sys_world s')) !! i
                     <> Some (length (chans (sys_world system_one_client)))).
Proof.
  apply (handler_releases_on_return demo_config [OpSubscribe] system_one_client
           (mkRequest "GET") fresh_writer true (busy_schedule ++ [Conn ContextDone])).
  - vm_compute. reflexivity.
  - vm_compute. reflexivity.
  - reflexivity.
  - reflexivity.
  - reflexivity.
Defined.

Example handler_busy_demo :
  match Handler (mkRequest "GET") fresh_writer true (sys_world system_one_client) with
  | Ok (c0, wd) =>
      match Handler_run (busy_schedule ++ [Conn ContextDone]) c0
              (mkSystem wd (sys_subs system_one_client)) with
      | Ok (c', s', n) =>
          c' = Returned (conn_writer c') /\ n = 2%nat
          /\ clients (rl (sys_world s')) = ∅
          /\ nextID (rl (sys_world s')) = 3
      | Panic => False
      end
  | Panic => False
  end.
Proof. vm_compute. repeat split. Qed.

Lemma Handler_run_app (sch1 sch2 : list sched) :
  forall (c : conn) (s : system),
    Handler_run (sch1 ++ sch2) c s
    = r1 ← Handler_run sch1 c s;
      r2 ← Handler_run sch2 (fst (fst r1)) (snd (fst r1));
      Ok (fst (fst r2), snd (fst r2), (snd r1 + snd r2)%nat).
Proof.
  induction sch1 as [|[o|ev] sch1 IH]; intros c s; cbn [app Handler_run].
  - cbn. destruct (Handler_run sch2 c s) as [[[c2 s2] n2]|]; done.
  - destruct (step o s) as [s1|]; cbn; [apply IH | done].
  - destruct (Handler_step ev c (sys_world s)) as [[c1 wd1]|]; cbn; [|done].
    rewrite IH.
    destruct (Handler_run sch1 c1 (mkSystem wd1 (sys_subs s))) as [[[c2 s2] n2]|]; cbn; [|done].
    destruct (Handler_run sch2 c2 s2) as [[[c3 s3] n3]|]; cbn; [|done].
    by rewrite Nat.add_assoc.
Qed.

(** A connection whose channel is closed returns within two receives: it
    may first drain a pending signal. *)
Lemma drain_closed (ch : nat) (b1 b2 : bool) (c : conn) (s : system) :
  wf (sys_world s) -> conn_closed ch c s ->
  exists c' s' n,
    Handler_run [Conn (ChanReady b1); Conn (ChanReady b2)] c s = Ok (c', s', n)
    /\ c' = Returned (conn_writer c') /\ (n <= 1)%nat.
Proof.
  intros Hwf [(c0 & Hc0 & Hcl) Hc]. destruct c as [w cancel ch0 | w].
  2: { cbn. eexists _, _, _. split; [done |]. split; [done | lia]. }
  subst ch0. destruct s as [wd subs]. cbn [sys_world sys_subs] in *.
  destruct (wf_slot wd Hwf ch c0 Hc0) as [Hcap Hlen].
  assert (Hlt : (ch < length (chans wd))%nat) by (eapply lookup_lt_Some; eauto).
  cbn [Handler_run Handler_step receives_signal sys_world sys_subs].
  unfold chan_recv at 1 2. rewrite Hc0.
  destruct (chan_len c0) as [|[|k]] eqn:El; [| |lia].
  - rewrite Hcl, world_eta_chans.
    destruct (wf_call_release cancel wd Hwf) as (wd' & -> & Hwf').
    cbn. eexists _, _, _. split; [done |]. split; [done | lia].
  - set (h1 := <[ch := mkChan (chan_cap c0) 0 (chan_closed c0)]> (chans wd)).
    assert (Hwf1 : wf (with_chans h1 wd)).
    { apply (wf_recv wd ch true h1 Hwf). unfold chan_recv. by rewrite Hc0, El. }
    destruct b1.
    + cbn [mbind result_bind fst snd Handler_run Handler_step receives_signal
           sys_world sys_subs chans with_chans].
      assert (Hh1 : h1 !! ch = Some (mkChan (chan_cap c0) 0 true)).
      { unfold h1. rewrite list_lookup_insert_eq by done. by rewrite Hcl. }
      unfold chan_recv. rewrite Hh1. cbn [chan_len chan_closed].
      change (with_chans h1 (with_chans h1 wd)) with (with_chans h1 wd).
      destruct (wf_call_release cancel (with_chans h1 wd) Hwf1) as (wd' & -> & Hwf').
      cbn. eexists _, _, _. split; [done |]. split; [done | lia].
    + destruct (wf_call_release cancel (with_chans h1 wd) Hwf1) as (wd' & -> & Hwf').
      cbn. eexists _, _, _. split; [done |]. split; [done | lia].
Qed.

(** X14: [Close] ends every stream. Whatever a connection and the other
    callers did before, once [Close] has run the connection returns within
    two receives on its channel (one for a signal still pending, one for the
    close), without waiting for the request to be cancelled, and nothing
    panics. *)
Theorem Close_ends_the_stream
    (config : Config.t) (t0 : list op) (s : system)
    (rq : Request) (w : ResponseWriter) (write_ok : bool) (sch : list sched)
    (b1 b2 : bool) :
  run t0 (init config) = Ok s ->
  Z.of_nat (length t0) + Z.of_nat (length sch) < Int64.max_int ->
  Method rq = "GET" -> isFlusher w = true -> closed (rl (sys_world s)) = false ->
  exists c0 wd c' s' n,
    Handler rq w write_ok (sys_world s) = Ok (c0, wd)
    /\ Handler_run (sch ++ [Other OpClose; Conn (ChanReady b1); Conn (ChanReady b2)]) c0
         (mkSystem wd (sys_subs s)) = Ok (c', s', n)
    /\ c' = Returned (conn_writer c').
Proof.
  intros Hrun Hb Hm Hfl Hcl.
  destruct (ids_fresh_run t0 (init config)) as (s0 & Hrun0 & Hwf & Hf & Hn0).
  { apply wf_new_world. }
  { apply init_ids_fresh. }
  { cbn. unfold Int64.max_int in *. lia. }
  assert (s0 = s) as -> by congruence. cbn in Hn0.
  destruct (Handler_subscribes s rq w write_ok Hwf Hf) as (c0 & wd & HH & Hwf1 & Hn1 & Hres);
    try done; [lia |].
  set (ch := length (chans (sys_world s))) in *.
  assert (Hmid : exists c1 s1 n1,
            Handler_run sch c0 (mkSystem wd (sys_subs s)) = Ok (c1, s1, n1)
            /\ wf (sys_world s1)
            /\ (conn_closed ch c1 s1
                \/ exists w1 i o, c1 = Streaming w1 (release_cancel i o) ch
                                  /\ held i o ch s1)).
  { destruct Hres as [(w1 & -> & Hh) | Hcc].
    - destruct (Handler_run_held _ _ _ sch w1 (mkSystem wd (sys_subs s)) Hwf1 Hh)
        as (c' & s' & n & Hr & Hwf' & Hres').
      { cbn. lia. }
      exists c', s', n. split; [done | split; [done |]].
      destruct Hres' as [(w2 & -> & Hh2) | Hcc]; [right; eauto | by left].
    - destruct (Handler_run_closed _ sch c0 (mkSystem wd (sys_subs s)) Hwf1 Hcc)
        as (c' & s' & n & Hr & Hwf' & Hcc').
      exists c', s', n. split; [done | split; [done |]]. by left. }
  destruct Hmid as (c1 & s1 & n1 & Hr1 & Hwf2 & Hinv).
  destruct (step_effect OpClose s1 Hwf2) as (s2 & Hstep & Hwf3 & Heff).
  assert (Hcc : conn_closed ch c1 s2).
  { destruct Hinv as [[Hclosed Hc] | (w1 & i & o & -> & Hh)].
    - split; [|done]. by apply (closed_effect ch OpClose s1).
    - split; [|done]. destruct Heff as (sm & Hmisc & Hclose).
      apply (held_eff_close i o ch sm); [| |done].
      + destruct Hmisc as (r' & ctxs' & -> & Hc1 & Hnn & Hm1). cbn.
        destruct Hwf2 as [Ha Hbb Hcc Hd]. constructor; cbn; rewrite ?Hm1, ?Hc1; done.
      + by apply (held_eff_misc i o ch s1). }
  destruct (drain_closed ch b1 b2 c1 s2 Hwf3 Hcc) as (c' & s' & n & Hdrain & Hret & _).
  exists c0, wd, c', s', (n1 + n)%nat. split; [done |]. split; [|done].
  rewrite Handler_run_app, Hr1. cbn [mbind result_bind fst snd].
  change (Handler_run (Other OpClose :: [Conn (ChanReady b1); Conn (ChanReady b2)]) c1 s1)
    with (s0 ← step OpClose s1; Handler_run [Conn (ChanReady b1); Conn (ChanReady b2)] c1 s0).
  rewrite Hstep. cbn [mbind result_bind]. rewrite Hdrain. done.
Qed.

Lemma Close_ends_the_stream_witness :
  exists c0 wd c' s' n,
    Handler (mkRequest "GET") fresh_writer true (sys_world system_one_client) = Ok (c0, wd)
    /\ Handler_run (busy_schedule ++ [Other OpClose; Conn (ChanReady true); Conn (ChanReady true)])
         c0 (mkSystem wd (sys_subs system_one_client)) = Ok (c', s', n)
    /\ c' = Returned (conn_writer c').
Proof.
  apply (Close_ends_the_stream demo_config [OpSubscribe] system_one_client
           (mkRequest "GET") fresh_writer true busy_schedule true true).
  - vm_compute. reflexivity.
  - vm_compute. reflexivity.
  - reflexivity.
  - reflexivity.
  - reflexivity.
Defined.

Lemma Handler_step_writer (ev : hevent) (c c' : conn) (wd wd' : world) :
  Handler_step ev c wd = Ok (c', wd') ->
  header (conn_writer c') = header (conn_writer c)
  /\ forall x, status (conn_writer c) = Some x -> status (conn_writer c') = Some x.
Proof.
  destruct c as [w cancel ch | w]; cbn [Handler_step]; [|by intros [= <- <-]].
  assert (Hw : forall x, status w = Some x -> status (Write reload_line w) = Some x).
  { intros x Hx. cbn. by rewrite Hx. }
  destruct ev as [|write_ok].
  - destruct (call_release cancel wd); cbn; [by intros [= <- <-] | done].
  - destruct (chan_recv ch (chans wd)) as [[[] h]|].
    + destruct write_ok; [by intros [= <- <-] |].
      destruct (call_release cancel (with_chans h wd)); cbn; [by intros [= <- <-] | done].
    + destruct (call_release cancel (with_chans h wd)); cbn; [by intros [= <- <-] | done].
    + by intros [= <- <-].
Qed.

Lemma Handler_run_writer (sch : list sched) :
  forall (c c' : conn) (s s' : system) (n : nat),
    Handler_run sch c s = Ok (c', s', n) ->
    header (conn_writer c') = header (conn_writer c)
    /\ forall x, status (conn_writer c) = Some x -> status (conn_writer c') = Some x.
Proof.
  induction sch as [|[o|ev] sch IH]; intros c c' s s' n; cbn [Handler_run].
  - by intros [= <- <- <-].
  - destruct (step o s) as [s1|]; cbn; [apply IH | done].
  - destruct (Handler_step ev c (sys_world s)) as [[c1 wd1]|] eqn:Hstep; cbn; [|done].
    destruct (Handler_run sch c1 (mkSystem wd1 (sys_subs s))) as [[[c2 s2] n2]|] eqn:Hrun;
      cbn; [|done].
    intros [= <- <- <-].
    destruct (Handler_step_writer ev c c1 _ _ Hstep) as [Hh Hs].
    destruct (IH c1 c2 _ _ _ Hrun) as [Hh' Hs'].
    split; [congruence | auto].
Qed.

(** X15: a GET on a writer that can flush is answered as an event stream:
    the three headers are set before the reloader is asked, so they are
    there with the status 410 of a closed reloader as well as with the
    status 200 of a stream, and neither they nor the status change while the
    connection streams, whatever the schedule. *)
Theorem stream_headers_stay
    (s : system) (rq : Request) (w : ResponseWriter) (write_ok : bool)
    (sch : list sched) :
  reachable s ->
  status w = None ->
  Method rq = "GET" -> isFlusher w = true ->
  exists c0 wd c' s' n,
    Handler rq w write_ok (sys_world s) = Ok (c0, wd)
    /\ Handler_run sch c0 (mkSystem wd (sys_subs s)) = Ok (c', s', n)
    /\ header (conn_writer c') = stream_headers (header w)
    /\ status (conn_writer c')
       = Some (if closed (rl (sys_world s)) then StatusGone else StatusOK).
Proof.
  intros Hr Hst Hm Hfl. pose proof (reachable_wf s Hr) as Hwf.
  assert (Hstart : exists c0 wd,
            Handler rq w write_ok (sys_world s) = Ok (c0, wd) /\ wf wd
            /\ header (conn_writer c0) = stream_headers (header w)
            /\ status (conn_writer c0)
               = Some (if closed (rl (sys_world s)) then StatusGone else StatusOK)).
  { unfold Handler. rewrite Hm, Hfl, String.eqb_refl. cbn [negb].
    destruct (closed (rl (sys_world s))) eqn:Hcl.
    - rewrite subscribe_closed by done. eexists _, _. split; [done | split; [done |]].
      cbn. by rewrite Hst.
    - pose proof (wf_subscribe _ Hwf) as Hwf1. rewrite subscribe_open in Hwf1 |- * by done.
      cbn [snd] in Hwf1. destruct write_ok.
      + eexists _, _. split; [done | split; [done |]]. cbn. by rewrite Hst.
      + destruct (wf_call_release
                    (release_cancel (nextID (rl (sys_world s))) (length (onces (sys_world s))))
                    _ Hwf1) as (wd' & -> & Hwf').
        cbn [mbind result_bind]. eexists _, _. split; [done | split; [done |]].
        cbn. by rewrite Hst. }
  destruct Hstart as (c0 & wd & HH & Hwf1 & Hh0 & Hs0).
  destruct (Handler_run_spec sch c0 (mkSystem wd (sys_subs s)) Hwf1) as (c' & s' & n & Hrun & _).
  destruct (Handler_run_writer sch c0 c' _ _ _ Hrun) as [Hh Hs].
  exists c0, wd, c', s', n. split; [done | split; [done | split]].
  - by rewrite Hh.
  - by apply Hs.
Qed.

Lemma stream_headers_stay_witness :
  exists c0 wd c' s' n,
    Handler (mkRequest "GET") fresh_writer true (sys_world system_one_client) = Ok (c0, wd)
    /\ Handler_run busy_schedule c0 (mkSystem wd (sys_subs system_one_client)) = Ok (c', s', n)
    /\ header (conn_writer c') = stream_headers (header fresh_writer)
    /\ status (conn_writer c')
       = Some (if closed (rl (sys_world system_one_client)) then StatusGone else StatusOK).
Proof.
  apply (stream_headers_stay system_one_client (mkRequest "GET") fresh_writer true
           busy_schedule).
  - exists demo_config, [OpSubscribe]. vm_compute. reflexivity.
  - reflexivity.
  - reflexivity.
  - reflexivity.
Defined.

(** ** Identifiers are not reused *)

Lemma subs_separate_effect (o : op) (s s' : system) :
  ids_fresh s -> subs_separate s ->
  nextID (rl (sys_world s)) < Int64.max_int ->
  op_effect o s s' ->
  subs_separate s'.
Proof.
  intros Hf [Hch Hsep] Hmax Heff.
  assert (Hkeep : forall a b,
            subs_separate a -> sys_subs b = sys_subs a ->
            length (chans (sys_world b)) = length (chans (sys_world a)) ->
            subs_separate b).
  { intros a b [Ha1 Ha2] Hsubs Hlen. split.
    - intros k id once och Hk. rewrite Hsubs in Hk. rewrite Hlen. by eapply Ha1.
    - intros k1 k2 id1 id2 o1 o2 c1 c2 Hne H1 H2. rewrite Hsubs in H1, H2.
      by eapply Ha2. }
  assert (Hchans : forall a b, eff_chans a b ->
            sys_subs b = sys_subs a
            /\ length (chans (sys_world b)) = length (chans (sys_world a))).
  { by intros a b (h' & -> & Hl & _). }
  assert (Hmisc : forall a b, eff_misc a b ->
            sys_subs b = sys_subs a
            /\ length (chans (sys_world b)) = length (chans (sys_world a))).
  { by intros a b (r' & ctxs' & -> & _). }
  assert (Hclose : forall a b, eff_close a b ->
            sys_subs b = sys_subs a
            /\ length (chans (sys_world b)) = length (chans (sys_world a))).
  { by intros a b [[_ ->] | [_ (h' & -> & Hl & _)]]. }
  destruct o as [|k'|k'| | | | | |b]; cbn in Heff.
  - destruct Heff as [[_ ->] | [_ ->]]; split; cbn.
    + intros k id once och Hk.
      apply lookup_app_Some in Hk as [Hk | [_ Hk]]; [by eapply Hch |].
      destruct (k - length (sys_subs s))%nat; cbn in Hk; done.
    + intros k1 k2 id1 id2 o1 o2 c1 c2 Hne H1 H2.
      apply lookup_app_Some in H1 as [H1 | [_ H1]];
        [|destruct (k1 - length (sys_subs s))%nat; cbn in H1; done].
      apply lookup_app_Some in H2 as [H2 | [_ H2]];
        [|destruct (k2 - length (sys_subs s))%nat; cbn in H2; done].
      by eapply Hsep.
    + intros k id once och Hk. rewrite length_app. cbn.
      apply lookup_app_Some in Hk as [Hk | [_ Hk]].
      * destruct (Hch k id once och Hk) as (ch & -> & Hlt). exists ch. split; [done | lia].
      * destruct (k - length (sys_subs s))%nat; cbn in Hk; [|done].
        injection Hk as <- <- <-. eexists. split; [done | lia].
    + intros k1 k2 id1 id2 o1 o2 c1 c2 Hne H1 H2.
      apply lookup_app_Some in H1 as [H1 | [Hge1 H1]];
        apply lookup_app_Some in H2 as [H2 | [Hge2 H2]].
      * by eapply Hsep.
      * destruct (k2 - length (sys_subs s))%nat; cbn in H2; [|done].
        injection H2 as <- <- <-.
        destruct (if_subs s Hf k1 id1 o1 c1 H1) as [Hid Ho].
        destruct (Hch k1 id1 o1 c1 H1) as (ch & -> & Hlt).
        repeat split; try lia. intros [= ->]. lia.
      * destruct (k1 - length (sys_subs s))%nat; cbn in H1; [|done].
        injection H1 as <- <- <-.
        destruct (if_subs s Hf k2 id2 o2 c2 H2) as [Hid Ho].
        destruct (Hch k2 id2 o2 c2 H2) as (ch & -> & Hlt).
        repeat split; try lia. intros [= <-]. lia.
      * destruct (k1 - length (sys_subs s))%nat eqn:E1; cbn in H1; [|done].
        destruct (k2 - length (sys_subs s))%nat eqn:E2; cbn in H2; [|done].
        lia.
  - apply (Hkeep s s'); [by split | |]; unfold eff_rel in Heff;
      destruct (sys_subs s !! k') as [[[|id' once'] och]|]; try (by subst s');
      destruct (onces (sys_world s) !! once') as [[]|]; try (by subst s');
      destruct (clients (rl (sys_world s)) !! id') as [ch'|];
      try (by subst s'); destruct Heff as (c & _ & _ & ->); cbn; try done.
    by rewrite length_insert.
  - destruct (Hchans _ _ Heff). by apply (Hkeep s s').
  - destruct (Hchans _ _ Heff). by apply (Hkeep s s').
  - destruct (Hmisc _ _ Heff). by apply (Hkeep s s').
  - destruct (Hclose _ _ Heff). by apply (Hkeep s s').
  - destruct Heff as (s1 & Hm & Hc).
    destruct (Hmisc _ _ Hm) as [E1 E2]. destruct (Hclose _ _ Hc) as [E3 E4].
    apply (Hkeep s s'); [by split | congruence | congruence].
  - destruct (Hmisc _ _ Heff). by apply (Hkeep s s').
  - destruct (Hmisc _ _ Heff). by apply (Hkeep s s').
Qed.

Lemma subs_separate_run (t : list op) :
  forall s s',
    wf (sys_world s) -> ids_fresh s -> subs_separate s ->
    nextID (rl (sys_world s)) + Z.of_nat (length t) <= Int64.max_int ->
    run t s = Ok s' -> subs_separate s'.
Proof.
  induction t as [|o t IH]; intros s s' Hwf Hf Hsep Hb Hrun; cbn [run] in Hrun.
  - by injection Hrun as <-.
  - destruct (step_effect o s Hwf) as (s1 & Hstep & Hwf1 & Heff). rewrite Hstep in Hrun.
    cbn in Hrun. pose proof (if_next s Hf) as Hn.
    assert (Hmax : nextID (rl (sys_world s)) < Int64.max_int) by (cbn [length] in Hb; lia).
    pose proof (nextID_effect o s s1 (conj Hn Hmax) Heff) as Hnext.
    apply (IH s1 s' Hwf1); [| |  | done].
    + by apply (ids_fresh_effect o s).
    + by apply (subs_separate_effect o s).
    + cbn [length] in Hb. lia.
Qed.

(** X16: identifiers are never reused. In an execution of fewer than 2^63
    calls, two subscriptions that [subscribe] registered have different
    identifiers, different channels and a [sync.Once] each, whether or not
    the earlier one was released in between. *)
Theorem identifiers_never_reused
    (config : Config.t) (t : list op) (s : system) (k1 k2 : nat)
    (id1 id2 : Z) (o1 o2 : nat) (c1 c2 : option nat) :
  run t (init config) = Ok s ->
  Z.of_nat (length t) < Int64.max_int ->
  k1 <> k2 ->
  sys_subs s !! k1 = Some (release_cancel id1 o1, c1) ->
  sys_subs s !! k2 = Some (release_cancel id2 o2, c2) ->
  id1 <> id2 /\ o1 <> o2 /\ c1 <> c2.
Proof.
  intros Hrun Hb Hne H1 H2.
  assert (Hsep : subs_separate s).
  { apply (subs_separate_run t (init config) s);
      [apply wf_new_world | apply init_ids_fresh | | cbn; lia | done].
    split; cbn.
    - intros k id once och H. by rewrite lookup_nil in H.
    - intros ? ? ? ? ? ? ? ? _ H. by rewrite lookup_nil in H. }
  destruct Hsep as [_ Hsep]. by apply (Hsep k1 k2 id1 id2 o1 o2 c1 c2).
Qed.

Lemma identifiers_never_reused_witness :
  sys_subs (system_after demo_many (init demo_config)) !! 0%nat
  = Some (release_cancel 0 0, Some 0%nat)
  /\ sys_subs (system_after demo_many (init demo_config)) !! 2%nat
     = Some (release_cancel 2 2, Some 2%nat)
  /\ ((0 : Z) <> 2 /\ 0%nat <> 2%nat /\ Some 0%nat <> Some 2%nat).
Proof.
  split; [vm_compute; reflexivity |]. split; [vm_compute; reflexivity |].
  apply (identifiers_never_reused demo_config demo_many
           (system_after demo_many (init demo_config)) 0 2 0 2 0 2 (Some 0%nat) (Some 2%nat)).
  - vm_compute. reflexivity.
  - vm_compute. reflexivity.
  - lia.
  - vm_compute. reflexivity.
  - vm_compute. reflexivity.
Defined.

(** ** The maximal age of whole seconds *)

Lemma digits2_pos_iter (p n : positive) :
  digits2_pos (Pos.iter xO p n) = (digits2_pos p + n)%positive.
Proof.
  induction n as [|n IH] using Pos.peano_ind.
  - cbn. lia.
  - rewrite Pos.iter_succ. cbn [digits2_pos]. rewrite IH. lia.
Qed.

Lemma Zpos_iter_xO (p n : positive) :
  Z.pos (Pos.iter xO p n) = Z.pos p * 2 ^ Z.pos n.
Proof.
  induction n as [|n IH] using Pos.peano_ind.
  - cbn [Pos.iter]. lia.
  - rewrite Pos.iter_succ, Pos2Z.inj_xO, IH, Pos2Z.inj_succ, Z.pow_succ_r by lia. lia.
Qed.

Lemma digits2_pos_lower (p : positive) :
  2 ^ (Z.pos (digits2_pos p) - 1) <= Z.pos p.
Proof.
  induction p as [p IH | p IH |]; cbn [digits2_pos].
  - rewrite Pos2Z.inj_succ.
    replace (Z.succ (Z.pos (digits2_pos p)) - 1) with (Z.succ (Z.pos (digits2_pos p) - 1)) by lia.
    rewrite Z.pow_succ_r by lia. lia.
  - rewrite Pos2Z.inj_succ.
    replace (Z.succ (Z.pos (digits2_pos p)) - 1) with (Z.succ (Z.pos (digits2_pos p) - 1)) by lia.
    rewrite Z.pow_succ_r by lia. lia.
  - cbn. lia.
Qed.

(** A mantissa that is already in canonical form is not rounded. *)
Lemma binary_round_aux_exact (m : positive) (e : Z) :
  fexp Float64.prec Float64.emax (Z.pos (digits2_pos m) + e) = e ->
  e <= 971 ->
  binary_round_aux Float64.prec Float64.emax false (Z.pos m) e loc_Exact
  = S754_finite false m e.
Proof.
  intros Hf He. unfold binary_round_aux, shr_fexp.
  cbn [Zdigits2 shr_record_of_loc]. rewrite Hf, Z.sub_diag.
  cbn [shr shr_m loc_of_shr_record round_nearest_even Zdigits2 shr_record_of_loc].
  rewrite Hf, Z.sub_diag. cbn [shr shr_m].
  replace (e <=? Float64.emax - Float64.prec) with true; [done |].
  symmetry. apply Z.leb_le. unfold Float64.emax, Float64.prec. lia.
Qed.

(** An integer below 2^53 is a [float64], and converts back to itself. *)
Lemma of_int_exact (p : positive) :
  Z.pos p < 2 ^ 53 ->
  exists m e, Float64.of_int (Z.pos p) = S754_finite false m e
              /\ Float64.to_int (S754_finite false m e) = Z.pos p.
Proof.
  intros Hp. pose proof (digits2_pos_lower p) as Hd.
  assert (Hd53 : Z.pos (digits2_pos p) <= 53).
  { destruct (Z_le_gt_dec (Z.pos (digits2_pos p)) 53) as [|Hgt]; [done |].
    assert (2 ^ 53 <= 2 ^ (Z.pos (digits2_pos p) - 1)) by (apply Z.pow_le_mono_r; lia).
    lia. }
  assert (Hfexp : forall x, 1 <= x <= 53 -> fexp Float64.prec Float64.emax x = x - 53).
  { intros x Hx. unfold fexp, emin, Float64.prec, Float64.emax. lia. }
  unfold Float64.of_int, binary_normalize, binary_round.
  rewrite Z.add_0_r, Hfexp by lia. unfold shl_align. rewrite Z.sub_0_r.
  destruct (Z.pos (digits2_pos p) - 53) as [|n|n] eqn:E; [| lia |].
  - exists p, 0. rewrite binary_round_aux_exact.
    + split; [done |]. cbn. lia.
    + rewrite Z.add_0_r, Hfexp by lia. exact E.
    + lia.
  - exists (Pos.iter xO p n), (Z.neg n). rewrite binary_round_aux_exact.
    + split; [done |]. unfold Float64.to_int. cbn [Z.leb Z.compare Z.opp].
      rewrite Zpos_iter_xO. apply Z.div_mul. apply Z.pow_nonzero; lia.
    + rewrite digits2_pos_iter, Pos2Z.inj_add.
      replace (Z.pos (digits2_pos p) + Z.pos n + Z.neg n) with (Z.pos (digits2_pos p)) by lia.
      rewrite Hfexp by lia. exact E.
    + lia.
Qed.

(** X17: for a maximal age of a whole number of seconds, up to the largest
    that a [Duration] holds, [New] stores exactly that number: the detour
    through [float64] loses nothing. *)
Theorem max_age_of_whole_seconds (r : string) (e : bool) (k : Z) :
  0 <= k <= 9223372036 ->
  maxAge (New (Config.mk r e (k * Duration.Second))) = k.
Proof.
  intros Hk. cbn [New maxAge Config.MaxAge]. unfold Duration.Seconds.
  assert (Hs : Duration.Second <> 0) by (unfold Duration.Second; lia).
  rewrite Z.quot_mul, Z.rem_mul by done.
  assert (Hz : Float64.div (Float64.of_int 0) (Float64.of_int 1000000000) = S754_zero false)
    by (vm_compute; reflexivity).
  rewrite Hz. destruct k as [|p|p]; [done | | lia].
  destruct (of_int_exact p) as (m & ex & -> & Hto); [lia |].
  exact Hto.
Qed.

Lemma max_age_of_whole_seconds_witness :
  maxAge (New (Config.mk "/dev/reload" true (86400 * Duration.Second))) = 86400.
Proof.
  apply (max_age_of_whole_seconds "/dev/reload" true 86400). lia.
Defined.
